(** * The aggregation pipeline of the streaming market-data system

    A shallow embedding of the aggregator (the consumer process): the
    latency recorder [update_latency_stats], the stats reporter
    [stats_reporter], the batch writer [batch_writer] and the dispatcher
    loop of [main], together with the properties its specification states
    about them.

    Conventions of the embedding.
    - [long long] and [int] values are integers of [Z]; their arithmetic
      wraps at 64 and 32 bits ([wrap64], [wrap32]), written out where the
      source adds or subtracts.
    - [double] values ([price], [latency_ms], the reported averages) are
      the exact rationals of [Q] that the doubles round; only their sign
      and their origin matter to the properties below.
    - [std::queue] and [std::vector] are lists, front first.
    - Each thread is a transition function for one iteration of its loop;
      the scheduler is the list of events handed to [run_events].  The
      mutex makes an enqueue and a drain atomic, which is the granularity
      of the events. *)

From Stdlib Require Import ZArith QArith Lia.
From stdpp Require Import base list strings.

Local Open Scope Z_scope.

(** ** 64-bit integers *)

Definition LLONG_MAX : Z := 9223372036854775807.
Definition LLONG_MIN : Z := -9223372036854775808.

(** The value a 64-bit two's complement register holds for [z]. *)
Definition wrap64 (z : Z) : Z := (z + 2 ^ 63) mod 2 ^ 64 - 2 ^ 63.

Definition ll_add (a b : Z) : Z := wrap64 (a + b).
Definition ll_sub (a b : Z) : Z := wrap64 (a - b).

Definition in_ll (z : Z) : Prop := LLONG_MIN <= z <= LLONG_MAX.

(** ** The latency recorder *)

(** The four process-wide atomics. *)
Record LatencyStats : Type := mkStats {
  total_processed : Z;
  total_latency_ns : Z;
  min_latency_ns : Z;
  max_latency_ns : Z
}.

(** Their initialisers: [0], [0], [LLONG_MAX], [0]. *)
Definition stats_init : LatencyStats := mkStats 0 0 LLONG_MAX 0.

Definition set_min (v : Z) (s : LatencyStats) : LatencyStats :=
  mkStats (total_processed s) (total_latency_ns s) v (max_latency_ns s).

Definition set_max (v : Z) (s : LatencyStats) : LatencyStats :=
  mkStats (total_processed s) (total_latency_ns s) (min_latency_ns s) v.

(** [update_latency_stats] run by one thread with no interference: both
    compare-exchanges succeed at their first genuine attempt. *)
Definition update_latency_stats (latency_ns : Z) (s : LatencyStats)
  : LatencyStats :=
  mkStats (ll_add (total_processed s) 1)
          (ll_add (total_latency_ns s) latency_ns)
          (if latency_ns <? min_latency_ns s
           then latency_ns else min_latency_ns s)
          (if latency_ns >? max_latency_ns s
           then latency_ns else max_latency_ns s).

(** The calls made one after the other, as the dispatcher makes them. *)
Definition record_all (latencies : list Z) (s : LatencyStats) : LatencyStats :=
  foldl (fun s x => update_latency_stats x s) s latencies.

(** *** Interleaved calls

    One call of [update_latency_stats] is a sequence of atomic accesses;
    [pc] names the access the call performs next and carries the locals
    [current_min] and [current_max]. *)
Inductive pc : Type :=
  | AtCount                      (* total_processed++ *)
  | AtTotal                      (* total_latency_ns += latency_ns *)
  | AtLoadMin                    (* current_min = min_latency_ns.load() *)
  | AtMinLoop (current_min : Z)  (* the while over compare_exchange_weak *)
  | AtLoadMax                    (* current_max = max_latency_ns.load() *)
  | AtMaxLoop (current_max : Z)
  | Returned.

(** [compare_exchange_weak(expected, desired)] on a cell holding [cell]:
    the new cell, the new [expected] and the returned flag.  A weak
    exchange may fail although the values are equal ([spurious]); on any
    failure [expected] receives the value of the cell. *)
Definition compare_exchange_weak (spurious : bool) (cell expected desired : Z)
  : Z * Z * bool :=
  if (cell =? expected) && negb spurious
  then (desired, expected, true)
  else (cell, cell, false).

(** One atomic access of a call recording [latency_ns]. *)
Definition step_call (spurious : bool) (latency_ns : Z) (p : pc)
    (s : LatencyStats) : pc * LatencyStats :=
  match p with
  | AtCount =>
      (AtTotal, mkStats (ll_add (total_processed s) 1) (total_latency_ns s)
                        (min_latency_ns s) (max_latency_ns s))
  | AtTotal =>
      (AtLoadMin, mkStats (total_processed s)
                          (ll_add (total_latency_ns s) latency_ns)
                          (min_latency_ns s) (max_latency_ns s))
  | AtLoadMin => (AtMinLoop (min_latency_ns s), s)
  | AtMinLoop current_min =>
      if latency_ns <? current_min then
        match compare_exchange_weak spurious (min_latency_ns s)
                                    current_min latency_ns with
        | (cell, _, true) => (AtLoadMax, set_min cell s)
        | (cell, expected, false) => (AtMinLoop expected, set_min cell s)
        end
      else (AtLoadMax, s)
  | AtLoadMax => (AtMaxLoop (max_latency_ns s), s)
  | AtMaxLoop current_max =>
      if latency_ns >? current_max then
        match compare_exchange_weak spurious (max_latency_ns s)
                                    current_max latency_ns with
        | (cell, _, true) => (Returned, set_max cell s)
        | (cell, expected, false) => (AtMaxLoop expected, set_max cell s)
        end
      else (Returned, s)
  | Returned => (Returned, s)
  end.

(** The recorder with its calls in flight: each call is its argument and
    its program point. *)
Record Recorder : Type := mkRecorder {
  shared : LatencyStats;
  calls : list (Z * pc)
}.

Definition recorder_init (latencies : list Z) : Recorder :=
  mkRecorder stats_init ((fun x => (x, AtCount)) <$> latencies).

(** The scheduler picks a call that has not returned and lets it perform
    one access; picking a call that does not exist or has returned is not
    a schedule. *)
Definition sched_step (r : Recorder) (e : nat * bool) : option Recorder :=
  match calls r !! e.1 with
  | Some (x, Returned) => None
  | Some (x, p) =>
      let '(p', s') := step_call e.2 x p (shared r) in
      Some (mkRecorder s' (<[e.1 := (x, p')]> (calls r)))
  | None => None
  end.

Fixpoint exec (sched : list (nat * bool)) (r : Recorder) : option Recorder :=
  match sched with
  | [] => Some r
  | e :: sched' =>
      match sched_step r e with
      | Some r' => exec sched' r'
      | None => None
      end
  end.

Definition returned (c : Z * pc) : bool :=
  match c.2 with Returned => true | _ => false end.

Definition all_returned (r : Recorder) : bool := forallb returned (calls r).

(** The schedule that runs the calls one after the other, each to its
    return, with no spurious failure: six accesses per call. *)
Definition solo (i : nat) : list (nat * bool) := replicate 6 (i, false).

Fixpoint sequential_from (i n : nat) : list (nat * bool) :=
  match n with
  | O => []
  | S n' => solo i ++ sequential_from (S i) n'
  end.

Definition sequential (n : nat) : list (nat * bool) := sequential_from 0 n.

(** What a call has established about the shared extrema at its program
    point: the minimum is at most the value it last read, and at most its
    argument once it has left the first loop; dually for the maximum. *)
Definition call_ok (s : LatencyStats) (c : Z * pc) : Prop :=
  match c.2 with
  | AtMinLoop current_min => min_latency_ns s <= current_min
  | AtLoadMax => min_latency_ns s <= c.1
  | AtMaxLoop current_max =>
      min_latency_ns s <= c.1 /\ current_max <= max_latency_ns s
  | Returned => min_latency_ns s <= c.1 <= max_latency_ns s
  | _ => True
  end.

(** The invariant of the interleaved calls with arguments [latencies]:
    each extremum is its initial value or one of the arguments. *)
Definition recorder_inv (latencies : list Z) (r : Recorder) : Prop :=
  (calls r).*1 = latencies
  /\ In (min_latency_ns (shared r)) (LLONG_MAX :: latencies)
  /\ In (max_latency_ns (shared r)) (0 :: latencies)
  /\ Forall (call_ok (shared r)) (calls r).

(** The stored extrema are the least and the greatest of [latencies]. *)
Definition true_extrema (latencies : list Z) (s : LatencyStats) : Prop :=
  (In (min_latency_ns s) latencies
   /\ Forall (fun x => min_latency_ns s <= x) latencies)
  /\ (In (max_latency_ns s) latencies
      /\ Forall (fun x => x <= max_latency_ns s) latencies).

(** A latency as the dispatcher records it: clamped at zero, within
    [long long]. *)
Definition is_latency (x : Z) : Prop := 0 <= x <= LLONG_MAX.

(** ** Data model *)

(** The decoded wire record [marketdata::MarketUpdate]. *)
Record MarketUpdate : Type := mkUpdate {
  upd_ticker : string;
  upd_price : Q;
  upd_volume : Z;
  upd_timestamp_ns : Z
}.

(** [struct MessageBatch], the item of the queue. *)
Record MessageBatch : Type := mkBatch {
  ticker : string;
  price : Q;
  volume : Z;
  timestamp_ns : Z;
  latency_ms : Q
}.

(** One parenthesised tuple of the INSERT statement, in the order of the
    [snprintf] arguments; [timestamp_ms] is [msg.timestamp_ns / 1000000]. *)
Record Row : Type := mkRow {
  row_timestamp_ms : Z;
  row_ticker : string;
  row_price : Q;
  row_volume : Z;
  row_latency_ms : Q
}.

(** What [stats_reporter] prints. *)
Record Report : Type := mkReport {
  rep_processed : Z;
  rep_queue : Z;
  rep_avg_ms : Q;
  rep_min_ms : Q;
  rep_max_ms : Q
}.

(** Lines written to standard output and standard error. *)
Inductive Output : Type :=
  | ConsumerError (errstr : string)
  | BatchInsertFailed (errmsg : string)
  | FlushingRemaining (n : Z)
  | TotalWritten (n : Z)
  | StatsReport (r : Report)
  | ShuttingDown (consumed : Z).

(** Everything the process does to the outside world, in program order:
    [redisAppendCommand], [redisGetReply], [PQexec] with the rows of its
    statement, and printing. *)
Inductive Effect : Type :=
  | AppendSET (key : string) (value : Q)
  | GetReply
  | PQexec (rows : list Row)
  | Print (o : Output).

(** The status of the [PGresult] a [PQexec] returns, with the text of
    [PQerrorMessage] when it is not [PGRES_COMMAND_OK]. *)
Inductive ExecStatus : Type :=
  | PGRES_COMMAND_OK
  | PGRES_FAILED (errmsg : string).

(** The error of a polled message that has one. *)
Inductive KafkaErr : Type :=
  | PARTITION_EOF
  | OtherErr (errstr : string).

(** What one [rd_kafka_consumer_poll] gives the loop: [NULL] on timeout,
    a message with an error, or a message with a payload.  A payload comes
    with the reading of [current_timestamp_ns] taken on its arrival and
    with the outcome of [ParseFromArray] on its bytes ([None] when the
    bytes do not decode). *)
Inductive Polled : Type :=
  | NoMessage
  | ErrMessage (err : KafkaErr)
  | Message (arrival_timestamp : Z) (parsed : option MarketUpdate).

(** ** The dispatcher loop of [main] *)

Definition wrap32 (z : Z) : Z := (z + 2 ^ 31) mod 2 ^ 32 - 2 ^ 31.

Record Dispatcher : Type := mkDispatcher {
  msg_count : Z;
  redis_pipeline_count : Z
}.

Definition dispatcher_init : Dispatcher := mkDispatcher 0 0.

(** [for (i = 0; i < n; i++) redisGetReply(...)]: [n] replies are read,
    whatever each reply says. *)
Definition read_replies (n : Z) : list Effect := replicate (Z.to_nat n) GetReply.

(** [arrival_timestamp - update.timestamp_ns()], clamped at zero. *)
Definition latency_of (arrival_timestamp produce_timestamp : Z) : Z :=
  let latency_ns := ll_sub arrival_timestamp produce_timestamp in
  if latency_ns <? 0 then 0 else latency_ns.

(** [latency_ns / 1e6]. *)
Definition ns_to_ms (ns : Z) : Q := Qmake ns 1000000.

Definition item_of (arrival_timestamp : Z) (u : MarketUpdate) : MessageBatch :=
  mkBatch (upd_ticker u) (upd_price u) (upd_volume u) (upd_timestamp_ns u)
          (ns_to_ms (latency_of arrival_timestamp (upd_timestamp_ns u))).

(** The result of one iteration of the loop. *)
Record Dispatched : Type := mkDispatched {
  d_local : Dispatcher;
  d_stats : LatencyStats;
  d_queue : list MessageBatch;
  d_effects : list Effect
}.

(** One iteration of [while (run)] in [main], from the poll to the
    [continue] or the end of the body. *)
Definition dispatcher_iter (p : Polled) (d : Dispatcher) (s : LatencyStats)
    (queue : list MessageBatch) : Dispatched :=
  match p with
  | NoMessage =>
      if redis_pipeline_count d >? 0
      then mkDispatched (mkDispatcher (msg_count d) 0) s queue
                        (read_replies (redis_pipeline_count d))
      else mkDispatched d s queue []
  | ErrMessage PARTITION_EOF => mkDispatched d s queue []
  | ErrMessage (OtherErr errstr) =>
      mkDispatched d s queue [Print (ConsumerError errstr)]
  | Message arrival_timestamp parsed =>
      let count := ll_add (msg_count d) 1 in
      match parsed with
      | None => mkDispatched (mkDispatcher count (redis_pipeline_count d))
                             s queue []
      | Some update =>
          let latency_ns :=
            latency_of arrival_timestamp (upd_timestamp_ns update) in
          let s' := update_latency_stats latency_ns s in
          let pending := wrap32 (redis_pipeline_count d + 1) in
          let item := item_of arrival_timestamp update in
          if pending >=? 100
          then mkDispatched (mkDispatcher count 0) s' (queue ++ [item])
                 (AppendSET (upd_ticker update) (upd_price update)
                    :: read_replies pending)
          else mkDispatched (mkDispatcher count pending) s' (queue ++ [item])
                 [AppendSET (upd_ticker update) (upd_price update)]
      end
  end.

(** After the loop: the replies still outstanding are read (the counter
    keeps its value) and the shutdown lines are printed. *)
Definition dispatcher_epilogue (d : Dispatcher) : list Effect :=
  (if redis_pipeline_count d >? 0
   then read_replies (redis_pipeline_count d) else [])
  ++ [Print (ShuttingDown (msg_count d))].

(** ** The batch writer *)

Definition BATCH_SIZE : Z := 5000.
Definition FLUSH_INTERVAL_MS : Z := 100.

Record Writer : Type := mkWriter {
  local_batch : list MessageBatch;
  last_flush : Z;
  total_written : Z
}.

(** The writer as [batch_writer] starts it at steady-clock reading
    [start] (nanoseconds). *)
Definition writer_init (start : Z) : Writer := mkWriter [] start 0.

Definition size (l : list MessageBatch) : Z := Z.of_nat (length l).

(** The loop under the lock: while the queue is not empty and the local
    batch is below [BATCH_SIZE], move the front of the queue to the back
    of the batch.  Returns the queue left and the batch. *)
Fixpoint drain (queue local : list MessageBatch)
  : list MessageBatch * list MessageBatch :=
  match queue with
  | [] => ([], local)
  | front :: rest =>
      if size local <? BATCH_SIZE
      then drain rest (local ++ [front])
      else (queue, local)
  end.

(** [duration_cast<milliseconds>(now - last_flush).count()], the clock
    readings being in nanoseconds: the cast truncates. *)
Definition elapsed_ms (now last : Z) : Z := Z.quot (now - last) 1000000.

Definition is_nil (l : list MessageBatch) : bool :=
  match l with [] => true | _ :: _ => false end.

(** [!local_batch.empty() &&
     (local_batch.size() >= BATCH_SIZE || elapsed >= FLUSH_INTERVAL_MS)]. *)
Definition should_flush (local : list MessageBatch) (elapsed : Z) : bool :=
  negb (is_nil local)
  && ((size local >=? BATCH_SIZE) || (elapsed >=? FLUSH_INTERVAL_MS)).

Definition row_of (msg : MessageBatch) : Row :=
  mkRow (Z.quot (timestamp_ns msg) 1000000) (ticker msg) (price msg)
        (volume msg) (latency_ms msg).

(** The statement built by the [for] loop: one tuple per element of the
    batch, index [0] first. *)
Definition build_query (local : list MessageBatch) : list Row :=
  row_of <$> local.

(** The result of one iteration of the writer: its locals, the queue, what
    it did to the outside, and whether it slept instead of flushing. *)
Record Written : Type := mkWritten {
  w_local : Writer;
  w_queue : list MessageBatch;
  w_effects : list Effect;
  w_slept : bool
}.

(** One iteration of [while (run)] in [batch_writer]; [now] is the reading
    of the steady clock and [res] the answer of the sink, used if the
    iteration flushes. *)
Definition writer_iter (now : Z) (res : ExecStatus) (w : Writer)
    (queue : list MessageBatch) : Written :=
  let '(queue', local) := drain queue (local_batch w) in
  let elapsed := elapsed_ms now (last_flush w) in
  if should_flush local elapsed then
    match res with
    | PGRES_COMMAND_OK =>
        mkWritten (mkWriter [] now (ll_add (total_written w) (size local)))
                  queue' [PQexec (build_query local)] false
    | PGRES_FAILED errmsg =>
        mkWritten (mkWriter [] now (total_written w))
                  queue' [PQexec (build_query local);
                          Print (BatchInsertFailed errmsg)] false
    end
  else mkWritten (mkWriter local (last_flush w) (total_written w))
                 queue' [] true.

(** After the loop of [batch_writer]: two lines are printed. *)
Definition writer_epilogue (w : Writer) : list Effect :=
  (if negb (is_nil (local_batch w))
   then [Print (FlushingRemaining (size (local_batch w)))] else [])
  ++ [Print (TotalWritten (total_written w))].

(** ** The stats reporter *)

(** Division of [long long] values; dividing by zero has no result. *)
Definition ll_div (a b : Z) : option Z :=
  if b =? 0 then None else Some (wrap64 (Z.quot a b)).

Inductive Reported : Type :=
  | Skipped                 (* the [continue] *)
  | Printed (r : Report)
  | DividedByZero.          (* the division had no result *)

(** One iteration of [stats_reporter] after its sleep. *)
Definition stats_reporter_iter (s : LatencyStats) (queue : list MessageBatch)
  : Reported :=
  let processed := total_processed s in
  if processed =? 0 then Skipped
  else
    let total_lat := total_latency_ns s in
    let min_lat := min_latency_ns s in
    let max_lat := max_latency_ns s in
    match ll_div total_lat processed with
    | None => DividedByZero
    | Some quotient =>
        Printed (mkReport processed (wrap32 (size queue))
                          (ns_to_ms quotient) (ns_to_ms min_lat)
                          (ns_to_ms max_lat))
    end.

(** ** The process *)

Record System : Type := mkSystem {
  run : bool;
  stats : LatencyStats;
  batch_queue : list MessageBatch;
  dispatcher : Dispatcher;
  dispatcher_live : bool;
  writer : Writer;
  writer_live : bool;
  reporter_live : bool;
  trace : list Effect
}.

(** The process when the three loops start; [start] is the steady-clock
    reading [batch_writer] takes for [last_flush]. *)
Definition system_init (start : Z) : System :=
  mkSystem true stats_init [] dispatcher_init true (writer_init start) true
           true [].

(** What the scheduler can let happen next: the dispatcher runs its loop
    once on what the poll returned, the writer runs its loop once, the
    reporter wakes up, or the interrupt signal arrives ([stop]).  A thread
    that finds [run] cleared at its loop test leaves its loop. *)
Inductive Event : Type :=
  | Poll (p : Polled)
  | WriterTick (now : Z) (res : ExecStatus)
  | ReporterTick
  | SIGINT.

Definition step (e : Event) (S : System) : System :=
  match e with
  | SIGINT =>
      mkSystem false (stats S) (batch_queue S) (dispatcher S)
               (dispatcher_live S) (writer S) (writer_live S)
               (reporter_live S) (trace S)
  | Poll p =>
      if negb (dispatcher_live S) then S
      else if run S then
        let r := dispatcher_iter p (dispatcher S) (stats S) (batch_queue S) in
        mkSystem (run S) (d_stats r) (d_queue r) (d_local r) true
                 (writer S) (writer_live S) (reporter_live S)
                 (trace S ++ d_effects r)
      else
        mkSystem (run S) (stats S) (batch_queue S) (dispatcher S) false
                 (writer S) (writer_live S) (reporter_live S)
                 (trace S ++ dispatcher_epilogue (dispatcher S))
  | WriterTick now res =>
      if negb (writer_live S) then S
      else if run S then
        let r := writer_iter now res (writer S) (batch_queue S) in
        mkSystem (run S) (stats S) (w_queue r) (dispatcher S)
                 (dispatcher_live S) (w_local r) true (reporter_live S)
                 (trace S ++ w_effects r)
      else
        mkSystem (run S) (stats S) (batch_queue S) (dispatcher S)
                 (dispatcher_live S) (writer S) false (reporter_live S)
                 (trace S ++ writer_epilogue (writer S))
  | ReporterTick =>
      if negb (reporter_live S) then S
      else if run S then
        mkSystem (run S) (stats S) (batch_queue S) (dispatcher S)
                 (dispatcher_live S) (writer S) (writer_live S) true
                 (trace S ++
                  match stats_reporter_iter (stats S) (batch_queue S) with
                  | Printed r => [Print (StatsReport r)]
                  | _ => []
                  end)
      else
        mkSystem (run S) (stats S) (batch_queue S) (dispatcher S)
                 (dispatcher_live S) (writer S) (writer_live S) false
                 (trace S)
  end.

Fixpoint run_events (evs : list Event) (S : System) : System :=
  match evs with
  | [] => S
  | e :: evs' => run_events evs' (step e S)
  end.

(** ** Observations on a run *)

(** The rows the sink was sent, over all [PQexec] calls, in order. *)
Fixpoint flushed_rows (t : list Effect) : list Row :=
  match t with
  | [] => []
  | PQexec rows :: t' => rows ++ flushed_rows t'
  | _ :: t' => flushed_rows t'
  end.

(** The statements the sink was sent. *)
Fixpoint statements (t : list Effect) : list (list Row) :=
  match t with
  | [] => []
  | PQexec rows :: t' => rows :: statements t'
  | _ :: t' => statements t'
  end.

(** Commands appended to the cache pipeline whose reply was not read. *)
Fixpoint outstanding_from (n : Z) (t : list Effect) : Z :=
  match t with
  | [] => n
  | AppendSET _ _ :: t' => outstanding_from (n + 1) t'
  | GetReply :: t' => outstanding_from (n - 1) t'
  | _ :: t' => outstanding_from n t'
  end.

Definition outstanding (t : list Effect) : Z := outstanding_from 0 t.

(** The items the dispatcher pushes for a list of events: those of the
    decoded payloads polled before the first interrupt. *)
Fixpoint accepted (evs : list Event) : list MessageBatch :=
  match evs with
  | [] => []
  | SIGINT :: _ => []
  | Poll (Message arrival (Some u)) :: evs' => item_of arrival u :: accepted evs'
  | _ :: evs' => accepted evs'
  end.

(** Payloads polled before the first interrupt that decode, and that do
    not. *)
Fixpoint valid_payloads (evs : list Event) : nat :=
  match evs with
  | [] => O
  | SIGINT :: _ => O
  | Poll (Message _ (Some _)) :: evs' => S (valid_payloads evs')
  | _ :: evs' => valid_payloads evs'
  end.

Fixpoint malformed_payloads (evs : list Event) : nat :=
  match evs with
  | [] => O
  | SIGINT :: _ => O
  | Poll (Message _ None) :: evs' => S (malformed_payloads evs')
  | _ :: evs' => malformed_payloads evs'
  end.

(** The integer variables of the process. *)
Inductive Counter : Type :=
  | TotalProcessed | TotalLatencyNs | MinLatencyNs | MaxLatencyNs
  | MsgCount | RedisPipelineCount | TotalWrittenCount
  | QueueSize | LocalBatchSize.

Definition read (c : Counter) (S : System) : Z :=
  match c with
  | TotalProcessed => total_processed (stats S)
  | TotalLatencyNs => total_latency_ns (stats S)
  | MinLatencyNs => min_latency_ns (stats S)
  | MaxLatencyNs => max_latency_ns (stats S)
  | MsgCount => msg_count (dispatcher S)
  | RedisPipelineCount => redis_pipeline_count (dispatcher S)
  | TotalWrittenCount => total_written (writer S)
  | QueueSize => size (batch_queue S)
  | LocalBatchSize => size (local_batch (writer S))
  end.

(** Whether an iteration of the writer sent a statement to the sink. *)
Definition flushed (r : Written) : bool :=
  match statements (w_effects r) with [] => false | _ :: _ => true end.

(** The latencies the dispatcher hands to [update_latency_stats] for a
    list of events. *)
Fixpoint recorded (evs : list Event) : list Z :=
  match evs with
  | [] => []
  | SIGINT :: _ => []
  | Poll (Message arrival (Some u)) :: evs' =>
      latency_of arrival (upd_timestamp_ns u) :: recorded evs'
  | _ :: evs' => recorded evs'
  end.

(** The items on their way to the sink, oldest first: those in the local
    batch of the writer, then those in the queue. *)
Definition in_flight (S : System) : list MessageBatch :=
  local_batch (writer S) ++ batch_queue S.

(** Every row the sink was sent, followed by the rows of the items on
    their way. *)
Definition pipeline (S : System) : list Row :=
  flushed_rows (trace S) ++ (row_of <$> in_flight S).

(** The items an event makes the dispatcher push. *)
Definition pushed (e : Event) (S : System) : list MessageBatch :=
  match e with
  | Poll (Message arrival (Some u)) =>
      if dispatcher_live S && run S then [item_of arrival u] else []
  | _ => []
  end.

(** While [run] is set, the dispatcher and the writer are in their
    loops. *)
Definition loops_live (S : System) : Prop :=
  run S = true -> dispatcher_live S = true /\ writer_live S = true.

(** The bound on the local batch and on the statements sent. *)
Definition batch_bounded (S : System) : Prop :=
  size (local_batch (writer S)) <= BATCH_SIZE
  /\ Forall (fun rows : list Row => 1 <= Z.of_nat (length rows) <= BATCH_SIZE)
            (statements (trace S)).

(** The commands the dispatcher holds outstanding: its counter while it
    is in its loop, none once it has left it. *)
Definition cache_pending (S : System) : Z :=
  if dispatcher_live S then redis_pipeline_count (dispatcher S) else 0.

(** What an effect adds to the commands outstanding. *)
Definition delta (e : Effect) : Z :=
  match e with
  | AppendSET _ _ => 1
  | GetReply => -1
  | _ => 0
  end.

(** Starting with [n] commands outstanding, the count stays within 0 and
    100 all along the effects [t]. *)
Fixpoint bounded_from (n : Z) (t : list Effect) : Prop :=
  0 <= n <= 100
  /\ match t with
     | [] => True
     | e :: t' => bounded_from (n + delta e) t'
     end.

Definition cache_inv (S : System) : Prop :=
  0 <= redis_pipeline_count (dispatcher S) < 100
  /\ outstanding (trace S) = cache_pending S
  /\ bounded_from 0 (trace S).

(** ** Further observations on the recorder and on a run *)

Definition sum_list (l : list Z) : Z := foldr Z.add 0 l.

(** Whether a call in flight has performed its increment of
    [total_processed], and what it has added to [total_latency_ns]. *)
Definition counted (c : Z * pc) : Z :=
  match c.2 with AtCount => 0 | _ => 1 end.

Definition added (c : Z * pc) : Z :=
  match c.2 with AtCount | AtTotal => 0 | _ => c.1 end.

(** The SET commands appended to the cache pipeline, in order. *)
Fixpoint sets (t : list Effect) : list (string * Q) :=
  match t with
  | [] => []
  | AppendSET key value :: t' => (key, value) :: sets t'
  | _ :: t' => sets t'
  end.

(** The rows of the statements the sink accepted: a statement it refused
    is followed in the trace by the line of its failure. *)
Fixpoint acknowledged (t : list Effect) : Z :=
  match t with
  | [] => 0
  | PQexec rows :: t' =>
      match t' with
      | Print (BatchInsertFailed _) :: _ => acknowledged t'
      | _ => Z.of_nat (length rows) + acknowledged t'
      end
  | _ :: t' => acknowledged t'
  end.




(** Effects that are neither a statement sent to the sink nor the line of
    a failed statement. *)
Definition plain (e : Effect) : Prop :=
  match e with
  | PQexec _ | Print (BatchInsertFailed _) => False
  | _ => True
  end.

(** The effects of an event do not begin with the line of a failed
    statement: that line only follows its own statement. *)
Definition starts_clean (t : list Effect) : Prop :=
  match t with
  | Print (BatchInsertFailed _) :: _ => False
  | _ => True
  end.

(** ** The producer

    The load generator of [cmd/producer/main.cpp].  Its four threads run
    [produce_data] on one Kafka handle and share the two atomic counters;
    an iteration touches the counters by one atomic increment, so the
    iterations of all threads in the order of their increments are one
    list. *)

Record ProducerStats : Type := mkProducerStats {
  total_messages : Z;
  total_errors : Z
}.

Definition producer_stats_init : ProducerStats := mkProducerStats 0 0.

(** What [rd_kafka_produce] returns. *)
Inductive ProduceErr : Type :=
  | NO_ERROR
  | QUEUE_FULL
  | OTHER_PRODUCE_ERROR.

(** What an iteration draws from its generator and reads from the clock:
    the index of the ticker, the two parts of the price, the volume and
    [current_timestamp_ns]. *)
Record Draw : Type := mkDraw {
  ticker_index : nat;
  price_base : Q;
  price_change : Q;
  drawn_volume : Z;
  produce_timestamp : Z
}.

Inductive ProducerEffect : Type :=
  | Produce (key : string) (payload : MarketUpdate)
  | KafkaPoll (timeout_ms : Z)
  | SleepMicros (us : Z)
  | KafkaFlush (timeout_ms : Z)
  | TopicDestroy
  | ProducerSay (line : string).

(** One iteration of [while (run)] in [produce_data]; there is none when
    the index is outside [tickers]. *)
Definition produce_iter (tickers : list string) (d : Draw) (err : ProduceErr)
    (s : ProducerStats) : option (ProducerStats * list ProducerEffect) :=
  match tickers !! ticker_index d with
  | None => None
  | Some current_ticker =>
      let update :=
        mkUpdate current_ticker (price_base d + price_change d)%Q
                 (drawn_volume d) (produce_timestamp d) in
      let sent := Produce current_ticker update in
      Some
        match err with
        | NO_ERROR =>
            (mkProducerStats (ll_add (total_messages s) 1) (total_errors s),
             [sent; KafkaPoll 0; SleepMicros 100])
        | QUEUE_FULL =>
            (mkProducerStats (total_messages s) (ll_add (total_errors s) 1),
             [sent; KafkaPoll 100])
        | OTHER_PRODUCE_ERROR =>
            (mkProducerStats (total_messages s) (ll_add (total_errors s) 1),
             [sent; KafkaPoll 0; SleepMicros 100])
        end
  end.

(** The iterations made before [run] is cleared. *)
Fixpoint produce_loop (tickers : list string)
    (inputs : list (Draw * ProduceErr)) (s : ProducerStats)
  : option (ProducerStats * list ProducerEffect) :=
  match inputs with
  | [] => Some (s, [])
  | (d, err) :: rest =>
      match produce_iter tickers d err s with
      | None => None
      | Some (s1, effects1) =>
          match produce_loop tickers rest s1 with
          | None => None
          | Some (s2, effects2) => Some (s2, effects1 ++ effects2)
          end
      end
  end.

(** [produce_data]: [topic_error] is the error of [rd_kafka_topic_new]
    when it returns no handle. *)
Definition produce_data (topic_error : option string) (tickers : list string)
    (inputs : list (Draw * ProduceErr)) (s : ProducerStats)
  : option (ProducerStats * list ProducerEffect) :=
  match topic_error with
  | Some errstr =>
      Some (s, [ProducerSay ("Failed to create topic handle: " +:+ errstr)])
  | None =>
      match produce_loop tickers inputs s with
      | None => None
      | Some (s', effects) =>
          Some (s', effects ++ [ProducerSay "Flushing final messages...";
                                KafkaFlush 10000; TopicDestroy])
      end
  end.

(** The messages handed to [rd_kafka_produce], the timeouts of the polls
    and the number of sleeps, in order. *)
Fixpoint produced (t : list ProducerEffect) : list (string * MarketUpdate) :=
  match t with
  | [] => []
  | Produce key payload :: t' => (key, payload) :: produced t'
  | _ :: t' => produced t'
  end.

Fixpoint polls (t : list ProducerEffect) : list Z :=
  match t with
  | [] => []
  | KafkaPoll timeout_ms :: t' => timeout_ms :: polls t'
  | _ :: t' => polls t'
  end.

Fixpoint sleeps (t : list ProducerEffect) : nat :=
  match t with
  | [] => O
  | SleepMicros _ :: t' => Datatypes.S (sleeps t')
  | _ :: t' => sleeps t'
  end.

(** The message an iteration builds from its draw. *)
Definition message_of (tickers : list string) (d : Draw)
  : option (string * MarketUpdate) :=
  match tickers !! ticker_index d with
  | None => None
  | Some current_ticker =>
      Some (current_ticker,
            mkUpdate current_ticker (price_base d + price_change d)%Q
                     (drawn_volume d) (produce_timestamp d))
  end.

Definition succeeded (i : Draw * ProduceErr) : bool :=
  match i.2 with NO_ERROR => true | _ => false end.

Definition queue_was_full (i : Draw * ProduceErr) : bool :=
  match i.2 with QUEUE_FULL => true | _ => false end.

(** *** [create_kafka_producer] *)

Inductive ProducerSetup : Type :=
  | ConfSet (name value : string)
  | KafkaNewProducer
  | SetupCerr (line : string)
  | SetupCout (line : string)
  | SleepSeconds (s : Z).

(** One [if (rd_kafka_conf_set(...) != RD_KAFKA_CONF_OK)]: [conf_set] gives
    the text left in [errstr] when the setting is refused; [rest] is the
    code after the [if]. *)
Definition try_conf (conf_set : string -> string -> option string)
    (name value : string) (rest : bool * list ProducerSetup)
  : bool * list ProducerSetup :=
  match conf_set name value with
  | Some errstr =>
      (false, [ConfSet name value;
               SetupCerr ("Config error (" +:+ name +:+ "): " +:+ errstr)])
  | None => (rest.1, ConfSet name value :: rest.2)
  end.

(** [create_kafka_producer]: whether a producer is returned, and what was
    done; [kafka_new] is the error of [rd_kafka_new] when it returns no
    handle. *)
Definition create_kafka_producer (brokers : string)
    (conf_set : string -> string -> option string)
    (kafka_new : option string) : bool * list ProducerSetup :=
  try_conf conf_set "metadata.max.age.ms" "30000"
    (try_conf conf_set "socket.timeout.ms" "60000"
       (try_conf conf_set "linger.ms" "10"
          (try_conf conf_set "compression.codec" "snappy"
             (try_conf conf_set "queue.buffering.max.messages" "100000"
                (try_conf conf_set "bootstrap.servers" brokers
                   match kafka_new with
                   | Some errstr =>
                       (false,
                        [KafkaNewProducer;
                         SetupCerr ("Failed to create Kafka producer: "
                                    +:+ errstr)])
                   | None =>
                       (true,
                        [KafkaNewProducer;
                         SetupCout "Kafka producer configured successfully.";
                         SetupCout "Waiting for metadata...";
                         SleepSeconds 2])
                   end))))).

(** The settings of the producer, in the order they are made. *)
Definition producer_settings (brokers : string) : list (string * string) :=
  [("metadata.max.age.ms", "30000"); ("socket.timeout.ms", "60000");
   ("linger.ms", "10"); ("compression.codec", "snappy");
   ("queue.buffering.max.messages", "100000");
   ("bootstrap.servers", brokers)].

Fixpoint settings_made (t : list ProducerSetup) : list (string * string) :=
  match t with
  | [] => []
  | ConfSet name value :: t' => (name, value) :: settings_made t'
  | _ :: t' => settings_made t'
  end.

Fixpoint setup_errors (t : list ProducerSetup) : list string :=
  match t with
  | [] => []
  | SetupCerr line :: t' => line :: setup_errors t'
  | _ :: t' => setup_errors t'
  end.

(** The settings up to and including the first one refused. *)
Fixpoint until_refused (conf_set : string -> string -> option string)
    (settings : list (string * string)) : list (string * string) :=
  match settings with
  | [] => []
  | (name, value) :: rest =>
      match conf_set name value with
      | Some _ => [(name, value)]
      | None => (name, value) :: until_refused conf_set rest
      end
  end.

Definition all_accepted (conf_set : string -> string -> option string)
    (settings : list (string * string)) : bool :=
  forallb (fun nv => match conf_set nv.1 nv.2 with
                     | None => true
                     | Some _ => false
                     end) settings.

Definition new_attempted (t : list ProducerSetup) : bool :=
  existsb (fun e => match e with KafkaNewProducer => true | _ => false end) t.

(** The first setting refused, with the text of its error. *)
Fixpoint first_refusal (conf_set : string -> string -> option string)
    (settings : list (string * string)) : option (string * string) :=
  match settings with
  | [] => None
  | (name, value) :: rest =>
      match conf_set name value with
      | Some errstr => Some (name, errstr)
      | None => first_refusal conf_set rest
      end
  end.

(** *** [status_reporter] of the producer *)

(** What the reporter prints: the messages sent since the last report,
    the throughput (printed after truncation to [int]; there is no number
    to print when no millisecond has elapsed), and the two totals. *)
Record StatusReport : Type := mkStatusReport {
  messages_sent : Z;
  throughput : option Q;
  total_reported : Z;
  errors_reported : Z
}.

Record StatusState : Type := mkStatusState {
  last_count : Z;
  last_time : Z
}.

(** What an iteration reads after its sleep: the steady clock and the two
    counters. *)
Record StatusReading : Type := mkStatusReading {
  read_now : Z;
  read_count : Z;
  read_errors : Z
}.

(** One iteration of [while (run)] in [status_reporter]. *)
Definition status_iter (rd : StatusReading) (st : StatusState)
  : StatusState * StatusReport :=
  let elapsed := elapsed_ms (read_now rd) (last_time st) in
  let sent := ll_sub (read_count rd) (last_count st) in
  (mkStatusState (read_count rd) (read_now rd),
   mkStatusReport sent
     (if elapsed =? 0 then None
      else Some (inject_Z (sent * 1000) / inject_Z elapsed)%Q)
     (read_count rd) (read_errors rd)).

Fixpoint status_loop (readings : list StatusReading) (st : StatusState)
  : StatusState * list StatusReport :=
  match readings with
  | [] => (st, [])
  | rd :: rest =>
      let '(st1, report) := status_iter rd st in
      let '(st2, reports) := status_loop rest st1 in
      (st2, report :: reports)
  end.

(** Counter readings that never go down and stay within [long long]. *)
Fixpoint nondecreasing_from (c0 : Z) (readings : list StatusReading) : Prop :=
  match readings with
  | [] => True
  | rd :: rest =>
      c0 <= read_count rd <= LLONG_MAX
      /\ nondecreasing_from (read_count rd) rest
  end.

(** ** Start-up and shutdown of the aggregator *)

(** What [main] and [connect_to_timescale] call, in order. *)
Inductive MainCall : Type :=
  | Cout (line : string)
  | Cerr (line : string)
  | RedisConnect (host : string) (port : Z)
  | RedisCommandPing
  | FreeReplyObject
  | RedisFree
  | PQconnectdb (conninfo : string)
  | PQexecSchema
  | PQclear
  | PQfinish
  | StartWriterThread
  | KafkaConfSet (name value : string)
  | KafkaNewConsumer
  | KafkaPollSetConsumer
  | KafkaSubscribe (topic : string)
  | KafkaTopicListDestroy
  | InstallSigint
  | StartStatsThread
  | MainLoop
  | JoinWriter
  | JoinStats
  | KafkaConsumerClose
  | KafkaDestroy.

(** [PQstatus] of the new connection. *)
Inductive ConnStatus : Type :=
  | CONNECTION_OK
  | CONNECTION_BAD.

(** [PQresultStatus] of the statement that creates the table. *)
Inductive SchemaStatus : Type :=
  | SCHEMA_COMMAND_OK
  | SCHEMA_TUPLES_OK
  | SCHEMA_FAILED.


Definition conninfo_of (host : string) : string :=
  "host=" +:+ host
  +:+ " port=5432 dbname=market_data user=postgres password=postgres".

(** [connect_to_timescale]: whether a connection is returned, and the
    calls made; [errmsg] is the text of [PQerrorMessage]. *)
Definition connect_to_timescale (host : string) (status : ConnStatus)
    (res : SchemaStatus) (errmsg : string) : bool * list MainCall :=
  match status with
  | CONNECTION_BAD =>
      (false, [PQconnectdb (conninfo_of host);
               Cerr ("Connection to TimescaleDB failed: " +:+ errmsg);
               PQfinish])
  | CONNECTION_OK =>
      match res with
      | SCHEMA_FAILED =>
          (false, [PQconnectdb (conninfo_of host);
                   Cout "Connected to TimescaleDB successfully.";
                   PQexecSchema;
                   Cerr ("Table creation failed: " +:+ errmsg);
                   PQclear; PQfinish])
      | _ =>
          (true, [PQconnectdb (conninfo_of host);
                  Cout "Connected to TimescaleDB successfully.";
                  PQexecSchema; PQclear;
                  Cout "TimescaleDB table ready."])
      end
  end.






Definition count_calls (f : MainCall -> bool) (t : list MainCall) : nat :=
  length (List.filter f t).


Definition is_pqconnectdb (c : MainCall) : bool :=
  match c with PQconnectdb _ => true | _ => false end.

Definition is_pqfinish (c : MainCall) : bool :=
  match c with PQfinish => true | _ => false end.

Definition is_pqclear (c : MainCall) : bool :=
  match c with PQclear => true | _ => false end.

Definition is_pqexec_schema (c : MainCall) : bool :=
  match c with PQexecSchema => true | _ => false end.



(** The connection strings handed to [PQconnectdb]. *)
Fixpoint conninfos (t : list MainCall) : list string :=
  match t with
  | [] => []
  | PQconnectdb conninfo :: t' => conninfo :: conninfos t'
  | _ :: t' => conninfos t'
  end.

(** ** The cache inspection tool

    The second program of the repository's tools: it lists every key of
    the cache with its value. *)












(** * Properties *)

(** ** 64-bit arithmetic *)

Lemma wrap64_id (z : Z) : in_ll z -> wrap64 z = z.
Proof.
  unfold in_ll, wrap64, LLONG_MIN, LLONG_MAX. intros Hz.
  rewrite Z.mod_small; lia.
Qed.

Lemma wrap64_range (z : Z) : in_ll (wrap64 z).
Proof.
  unfold in_ll, wrap64, LLONG_MIN, LLONG_MAX.
  pose proof (Z.mod_pos_bound (z + 2 ^ 63) (2 ^ 64) ltac:(lia)). lia.
Qed.

Lemma wrap32_id (z : Z) : - 2 ^ 31 <= z < 2 ^ 31 -> wrap32 z = z.
Proof. unfold wrap32. intros Hz. rewrite Z.mod_small; lia. Qed.

(** ** The latency recorder *)

Section RecorderInvariant.

(** The arguments of the calls in flight. *)
Variable latencies : list Z.

Lemma call_ok_mono (s s' : LatencyStats) (c : Z * pc) :
  min_latency_ns s' <= min_latency_ns s ->
  max_latency_ns s <= max_latency_ns s' ->
  call_ok s c -> call_ok s' c.
Proof. unfold call_ok. destruct c as [x []]; simpl; lia. Qed.

(** One access moves the minimum down and the maximum up, to the
    argument of the call if at all, and establishes the next point. *)
Lemma step_call_spec (b : bool) (x : Z) (p p' : pc) (s s' : LatencyStats) :
  step_call b x p s = (p', s') ->
  min_latency_ns s' <= min_latency_ns s
  /\ max_latency_ns s <= max_latency_ns s'
  /\ (min_latency_ns s' = min_latency_ns s \/ min_latency_ns s' = x)
  /\ (max_latency_ns s' = max_latency_ns s \/ max_latency_ns s' = x)
  /\ (call_ok s (x, p) -> call_ok s' (x, p')).
Proof.
  unfold call_ok, step_call, compare_exchange_weak.
  destruct p as [| | |cur| |cur|]; simpl; intros Hs;
    repeat case_match; simplify_eq/=;
    repeat match goal with
           | H : andb _ _ = true |- _ => apply andb_true_iff in H as [? ?]
           end; lia.
Qed.

Lemma recorder_init_inv : recorder_inv latencies (recorder_init latencies).
Proof.
  unfold recorder_inv, recorder_init; simpl. repeat split.
  - rewrite <- list_fmap_compose. apply list_fmap_id.
  - now left.
  - now left.
  - apply Forall_fmap, Forall_true. intros x. exact I.
Qed.

Lemma sched_step_inv (r r' : Recorder) (e : nat * bool) :
  sched_step r e = Some r' ->
  recorder_inv latencies r -> recorder_inv latencies r'.
Proof.
  unfold sched_step. destruct e as [i b]; simpl.
  destruct (calls r !! i) as [[x p]|] eqn:Hi; [|discriminate].
  intros Hstep (Hxs & Hmin & Hmax & Hok).
  assert (Hx : In x latencies).
  { rewrite <- Hxs. apply list_elem_of_In, list_elem_of_lookup.
    exists i. rewrite list_lookup_fmap, Hi. reflexivity. }
  assert (Hr' : exists p' s', step_call b x p (shared r) = (p', s')
                 /\ r' = mkRecorder s' (<[i := (x, p')]> (calls r))).
  { destruct (step_call b x p (shared r)) as [p' s'] eqn:Hsc.
    exists p', s'. split; [reflexivity|].
    destruct p; congruence. }
  destruct Hr' as (p' & s' & Hsc & ->).
  apply step_call_spec in Hsc as (Hlo & Hhi & Hm & HM & Hnext).
  unfold recorder_inv; simpl. repeat split.
  - rewrite list_fmap_insert; simpl. rewrite list_insert_id; [done|].
    rewrite list_lookup_fmap, Hi. reflexivity.
  - destruct Hm as [-> | ->]; [assumption | now right].
  - destruct HM as [-> | ->]; [assumption | now right].
  - apply Forall_insert.
    + eapply Forall_impl; [exact Hok|].
      intros c. now apply call_ok_mono.
    + apply Hnext. rewrite Forall_lookup in Hok. exact (Hok i _ Hi).
Qed.

Lemma exec_inv (sched : list (nat * bool)) (r r' : Recorder) :
  exec sched r = Some r' ->
  recorder_inv latencies r -> recorder_inv latencies r'.
Proof.
  revert r. induction sched as [|e sched IH]; simpl; intros r.
  - intros [= <-]. trivial.
  - destruct (sched_step r e) as [r1|] eqn:He; [|discriminate].
    intros Hexec Hinv. eapply IH; [exact Hexec|].
    eapply sched_step_inv; eassumption.
Qed.

(** When every call has returned, the shared cells bound every
    argument. *)
Lemma returned_bounds (r : Recorder) :
  recorder_inv latencies r -> all_returned r = true ->
  Forall (fun x => min_latency_ns (shared r) <= x <= max_latency_ns (shared r))
         latencies.
Proof.
  intros (Hxs & _ & _ & Hok) Hret. rewrite <- Hxs.
  apply Forall_fmap. unfold all_returned in Hret.
  rewrite forallb_forall in Hret.
  eapply Forall_impl.
  - apply Forall_and. split; [exact Hok|].
    apply Forall_forall. intros c Hc. apply Hret, list_elem_of_In, Hc.
  - intros [x p] [Hc Hp]. unfold returned in Hp. unfold call_ok in Hc.
    simpl in *. destruct p; try discriminate. exact Hc.
Qed.

End RecorderInvariant.

(** *** The calls run one after the other *)

Lemma exec_app (a b : list (nat * bool)) (r : Recorder) :
  exec (a ++ b) r = exec a r ≫= exec b.
Proof.
  revert r. induction a as [|e a IH]; simpl; intros r; [reflexivity|].
  destruct (sched_step r e); simpl; [apply IH | reflexivity].
Qed.

Lemma sched_step_at (s : LatencyStats) (l : list (Z * pc)) (i : nat)
    (b : bool) (x : Z) (p : pc) :
  l !! i = Some (x, p) -> p <> Returned ->
  sched_step (mkRecorder s l) (i, b)
  = Some (mkRecorder (step_call b x p s).2 (<[i := (x, (step_call b x p s).1)]> l)).
Proof.
  intros Hi Hp. unfold sched_step; simpl. rewrite Hi.
  destruct p; try congruence;
    match goal with
    | |- context [step_call ?b ?x ?q ?s] =>
        destruct (step_call b x q s); reflexivity
    end.
Qed.

(** A call scheduled alone from its entry returns after six accesses and
    has done what [update_latency_stats] does. *)
Lemma solo_runs (s : LatencyStats) (l : list (Z * pc)) (i : nat) (x : Z) :
  l !! i = Some (x, AtCount) ->
  exec (solo i) (mkRecorder s l)
  = Some (mkRecorder (update_latency_stats x s) (<[i := (x, Returned)]> l)).
Proof.
  intros Hi. pose proof (lookup_lt_Some _ _ _ Hi) as Hlt.
  assert (Hnext : forall p, (<[i := (x, p)]> l) !! i = Some (x, p)).
  { intros p. apply list_lookup_insert_eq, Hlt. }
  unfold solo; simpl.
  rewrite (sched_step_at _ _ _ _ x AtCount); [|exact Hi|discriminate]; simpl.
  do 2 (erewrite sched_step_at; [|apply Hnext|discriminate]; simpl;
        rewrite list_insert_insert_eq).
  erewrite sched_step_at; [|apply Hnext|discriminate].
  rewrite list_insert_insert_eq. unfold update_latency_stats.
  destruct (x <? min_latency_ns s) eqn:Hmin; simpl; rewrite ?Hmin; simpl;
    unfold compare_exchange_weak; simpl; rewrite ?Z.eqb_refl; simpl;
    do 2 (erewrite sched_step_at; [|apply Hnext|discriminate]; simpl;
          rewrite list_insert_insert_eq);
    destruct (x >? max_latency_ns s) eqn:Hmax; simpl;
    unfold compare_exchange_weak; rewrite ?Z.eqb_refl; reflexivity.
Qed.

Lemma sequential_from_runs (done todo : list Z) (s : LatencyStats) :
  exec (sequential_from (length done) (length todo))
       (mkRecorder s (((fun x => (x, Returned)) <$> done)
                      ++ ((fun x => (x, AtCount)) <$> todo)))
  = Some (mkRecorder (record_all todo s)
                     ((fun x => (x, Returned)) <$> (done ++ todo))).
Proof.
  revert done s. induction todo as [|x todo IH]; intros done s.
  - simpl. rewrite !app_nil_r. reflexivity.
  - change (sequential_from (length done) (length (x :: todo)))
      with (solo (length done) ++ sequential_from (S (length done)) (length todo)).
    rewrite exec_app, (solo_runs _ _ _ x).
    + rewrite insert_app_r_alt by (rewrite length_fmap; lia).
      rewrite length_fmap, Nat.sub_diag.
      specialize (IH (done ++ [x]) (update_latency_stats x s)).
      rewrite length_app, Nat.add_1_r, fmap_app, <- !app_assoc in IH.
      exact IH.
    + rewrite lookup_app_r by (rewrite length_fmap; lia).
      rewrite length_fmap, Nat.sub_diag. reflexivity.
Qed.

(** The sequential schedule is a complete run, and it computes the fold of
    [update_latency_stats] over the arguments. *)
Lemma sequential_completes (latencies : list Z) :
  exec (sequential (length latencies)) (recorder_init latencies)
  = Some (mkRecorder (record_all latencies stats_init)
                     ((fun x => (x, Returned)) <$> latencies)).
Proof. exact (sequential_from_runs [] latencies stats_init). Qed.

Lemma all_returned_fmap (latencies : list Z) (s : LatencyStats) :
  all_returned (mkRecorder s ((fun x => (x, Returned)) <$> latencies)) = true.
Proof.
  unfold all_returned; simpl. induction latencies; simpl; auto.
Qed.

(** A complete run, whatever its interleaving and its spurious failures
    and whatever the arguments, leaves in each cell its initial value or
    an argument, below every argument for the minimum and above every
    argument for the maximum. *)
Lemma complete_run_cells (latencies : list Z) (sched : list (nat * bool))
    (r : Recorder) :
  exec sched (recorder_init latencies) = Some r ->
  all_returned r = true ->
  (In (min_latency_ns (shared r)) (LLONG_MAX :: latencies)
   /\ Forall (fun x => min_latency_ns (shared r) <= x) latencies)
  /\ (In (max_latency_ns (shared r)) (0 :: latencies)
      /\ Forall (fun x => x <= max_latency_ns (shared r)) latencies).
Proof.
  intros Hexec Hret.
  pose proof (exec_inv latencies _ _ _ Hexec (recorder_init_inv latencies))
    as Hinv.
  pose proof (returned_bounds latencies r Hinv Hret) as Hb.
  destruct Hinv as (_ & Hmin & Hmax & _).
  repeat split; try assumption;
    (eapply Forall_impl; [exact Hb|]; simpl; lia).
Qed.

(** On latencies, the initial values are no candidates of their own: the
    cells hold the true extrema. *)
Lemma complete_run_extrema (latencies : list Z) (sched : list (nat * bool))
    (r : Recorder) :
  latencies <> [] -> Forall is_latency latencies ->
  exec sched (recorder_init latencies) = Some r ->
  all_returned r = true ->
  true_extrema latencies (shared r).
Proof.
  intros Hne Hlat Hexec Hret.
  destruct (complete_run_cells latencies sched r Hexec Hret)
    as [[Hmin Hlow] [Hmax Hhigh]].
  destruct latencies as [|x0 rest]; [congruence|].
  pose proof (Forall_inv Hlow) as Hlow0. pose proof (Forall_inv Hhigh) as Hhigh0.
  pose proof (Forall_inv Hlat) as Hl0. unfold is_latency in Hl0.
  simpl in Hlow0, Hhigh0.
  unfold true_extrema. repeat split; try assumption.
  - destruct Hmin as [Hm | Hm]; [|exact Hm]. left. lia.
  - destruct Hmax as [HM | HM]; [|exact HM]. left. lia.
Qed.

(** C4. For every non-empty sequence of recorded latencies, the stored
    [min_latency_ns] is the minimum and the stored [max_latency_ns] the
    maximum of the recorded values once all calls have completed: when the
    calls are made one after the other, and in every interleaving of the
    atomic accesses of concurrent calls, spurious failures of the weak
    compare-exchange included. *)
Theorem recorder_keeps_true_extrema (latencies : list Z) :
  latencies <> [] -> Forall is_latency latencies ->
  true_extrema latencies (record_all latencies stats_init)
  /\ (forall (sched : list (nat * bool)) (r : Recorder),
        exec sched (recorder_init latencies) = Some r ->
        all_returned r = true ->
        true_extrema latencies (shared r)).
Proof.
  intros Hne Hlat. split.
  - apply (complete_run_extrema latencies (sequential (length latencies))
             (mkRecorder (record_all latencies stats_init)
                         ((fun x => (x, Returned)) <$> latencies)));
      auto using sequential_completes, all_returned_fmap.
  - intros sched r. now apply complete_run_extrema.
Qed.

(** Three calls interleaved, the second failing once spuriously. *)
Lemma recorder_keeps_true_extrema_witness :
  let latencies := [5; 3; 9] in
  let sched := [(0, false); (1, false); (2, false); (0, false); (1, false);
                (2, false); (0, false); (1, false); (2, false); (1, true);
                (0, false); (1, false); (2, false); (0, false); (0, false);
                (2, false); (2, false); (1, false); (1, false);
                (2, false); (1, false)]%nat in
  (latencies <> [] /\ Forall is_latency latencies)
  /\ (exists r, exec sched (recorder_init latencies) = Some r
                /\ all_returned r = true
                /\ true_extrema latencies (shared r)
                /\ min_latency_ns (shared r) = 3
                /\ max_latency_ns (shared r) = 9)
  /\ true_extrema latencies (record_all latencies stats_init).
Proof.
  intros latencies sched.
  assert (Hne : latencies <> []) by discriminate.
  assert (Hlat : Forall is_latency latencies).
  { repeat constructor; unfold LLONG_MAX; lia. }
  destruct (recorder_keeps_true_extrema latencies Hne Hlat) as [Hseq Hany].
  split; [split; assumption|]. split; [|exact Hseq].
  destruct (exec sched (recorder_init latencies)) as [r|] eqn:Hr;
    [|vm_compute in Hr; discriminate].
  exists r. split; [reflexivity|].
  assert (Hret : all_returned r = true).
  { vm_compute in Hr. injection Hr as <-. reflexivity. }
  split; [exact Hret|]. split; [exact (Hany sched r Hr Hret)|].
  vm_compute in Hr. injection Hr as <-. split; reflexivity.
Defined.

(** ** Runs of the process *)

Lemma run_events_invariant (P : System -> Prop) :
  (forall e S, P S -> P (step e S)) ->
  forall evs S, P S -> P (run_events evs S).
Proof.
  intros Hstep evs. induction evs as [|e evs IH]; simpl; auto.
Qed.

Lemma run_events_app (evs1 evs2 : list Event) (S : System) :
  run_events (evs1 ++ evs2) S = run_events evs2 (run_events evs1 S).
Proof. revert S. induction evs1; simpl; auto. Qed.

Lemma loops_live_init (start : Z) : loops_live (system_init start).
Proof. split; reflexivity. Qed.

Lemma loops_live_step (e : Event) (S : System) :
  loops_live S -> loops_live (step e S).
Proof.
  unfold loops_live. intros Hlive.
  destruct e; simpl; repeat case_match; simpl; intros Hrun;
    try discriminate; try (apply Hlive; congruence);
    destruct (Hlive ltac:(congruence)); split; congruence.
Qed.

(** ** The clamp *)

Lemma latency_of_clamps (arrival produce : Z) :
  latency_of arrival produce = Z.max 0 (ll_sub arrival produce).
Proof.
  unfold latency_of. cbv zeta.
  destruct (Z.ltb_spec (ll_sub arrival produce) 0); lia.
Qed.

Lemma latency_of_is_latency (arrival produce : Z) :
  is_latency (latency_of arrival produce).
Proof.
  rewrite latency_of_clamps. unfold is_latency, ll_sub.
  pose proof (wrap64_range (arrival - produce)) as [_ Hhi].
  unfold LLONG_MAX in *. lia.
Qed.

Lemma latency_of_exact (arrival produce : Z) :
  in_ll (arrival - produce) ->
  latency_of arrival produce = Z.max 0 (arrival - produce).
Proof.
  intros Hr. rewrite latency_of_clamps. unfold ll_sub.
  now rewrite wrap64_id.
Qed.

Lemma item_latency_nonneg (arrival : Z) (u : MarketUpdate) :
  (0 <= latency_ms (item_of arrival u))%Q.
Proof.
  unfold item_of, ns_to_ms, Qle; simpl.
  pose proof (latency_of_is_latency arrival (upd_timestamp_ns u)) as [H _].
  lia.
Qed.

(** ** The drain under the lock *)

(** The drain moves a prefix of the queue to the back of the batch and
    keeps the order. *)
Lemma drain_keeps_order (queue local : list MessageBatch) :
  (drain queue local).2 ++ (drain queue local).1 = local ++ queue.
Proof.
  revert local. induction queue as [|front rest IH]; intros local; simpl.
  - reflexivity.
  - destruct (size local <? BATCH_SIZE); simpl; [|reflexivity].
    rewrite IH, <- app_assoc. reflexivity.
Qed.

Lemma drain_bounded (queue local : list MessageBatch) :
  size local <= BATCH_SIZE -> size (drain queue local).2 <= BATCH_SIZE.
Proof.
  revert local. induction queue as [|front rest IH]; intros local Hl; simpl.
  - exact Hl.
  - destruct (Z.ltb_spec (size local) BATCH_SIZE); simpl; [|exact Hl].
    apply IH. unfold size in *. rewrite length_app; simpl. lia.
Qed.

(** The drain stops early only on a full batch. *)
Lemma drain_stops_full (queue local : list MessageBatch) :
  (drain queue local).1 = [] \/ BATCH_SIZE <= size (drain queue local).2.
Proof.
  revert local. induction queue as [|front rest IH]; intros local; simpl.
  - now left.
  - destruct (Z.ltb_spec (size local) BATCH_SIZE); simpl; [apply IH|].
    now right.
Qed.

Lemma drain_grows (queue local : list MessageBatch) :
  size local <= size (drain queue local).2.
Proof.
  revert local. induction queue as [|front rest IH]; intros local; simpl.
  - lia.
  - destruct (size local <? BATCH_SIZE); simpl; [|lia].
    etransitivity; [|apply IH]. unfold size. rewrite length_app. simpl. lia.
Qed.

(** ** What an iteration of the writer does *)

Lemma writer_iter_drained (now : Z) (res : ExecStatus) (w : Writer)
    (queue : list MessageBatch) :
  w_queue (writer_iter now res w queue) = (drain queue (local_batch w)).1.
Proof.
  unfold writer_iter. destruct (drain queue (local_batch w)) as [q' local].
  destruct (should_flush _ _); [destruct res|]; reflexivity.
Qed.

Lemma writer_iter_flushed (now : Z) (res : ExecStatus) (w : Writer)
    (queue : list MessageBatch) :
  flushed (writer_iter now res w queue)
  = should_flush (drain queue (local_batch w)).2
                 (elapsed_ms now (last_flush w)).
Proof.
  unfold writer_iter. destruct (drain queue (local_batch w)) as [q' local].
  simpl. destruct (should_flush _ _); [destruct res|]; reflexivity.
Qed.

(** An iteration that flushes sends the drained batch, empties it and
    stamps the flush; one that does not keeps the drained batch. *)
Lemma writer_iter_cases (now : Z) (res : ExecStatus) (w : Writer)
    (queue : list MessageBatch) :
  let r := writer_iter now res w queue in
  let batch := (drain queue (local_batch w)).2 in
  (flushed r = true
   /\ local_batch (w_local r) = [] /\ last_flush (w_local r) = now
   /\ statements (w_effects r) = [build_query batch]
   /\ flushed_rows (w_effects r) = build_query batch
   /\ batch <> [])
  \/ (flushed r = false
      /\ local_batch (w_local r) = batch
      /\ w_local r = mkWriter batch (last_flush w) (total_written w)
      /\ w_effects r = []).
Proof.
  intros r batch. subst r batch. unfold writer_iter.
  destruct (drain queue (local_batch w)) as [q' local]. simpl.
  destruct (should_flush local _) eqn:Hf.
  - left. unfold should_flush in Hf. apply andb_true_iff in Hf as [Hn _].
    assert (local <> []) by (destruct local; [discriminate|congruence]).
    destruct res; simpl; rewrite ?app_nil_r; auto 10.
  - right. auto.
Qed.

Lemma flushed_rows_app (t1 t2 : list Effect) :
  flushed_rows (t1 ++ t2) = flushed_rows t1 ++ flushed_rows t2.
Proof.
  induction t1 as [|[] t1 IH]; simpl; rewrite ?IH, <- ?app_assoc; reflexivity.
Qed.

Lemma statements_app (t1 t2 : list Effect) :
  statements (t1 ++ t2) = statements t1 ++ statements t2.
Proof.
  induction t1 as [|[] t1 IH]; simpl; rewrite ?IH; reflexivity.
Qed.

Lemma flushed_rows_read_replies (n : Z) : flushed_rows (read_replies n) = [].
Proof. unfold read_replies. induction (Z.to_nat n); simpl; auto. Qed.

Lemma statements_read_replies (n : Z) : statements (read_replies n) = [].
Proof. unfold read_replies. induction (Z.to_nat n); simpl; auto. Qed.

(** What the dispatcher does to the queue and never does to the sink. *)
Lemma dispatcher_iter_queue (p : Polled) (d : Dispatcher) (s : LatencyStats)
    (queue : list MessageBatch) :
  let r := dispatcher_iter p d s queue in
  d_queue r = queue ++ match p with
                       | Message arrival (Some u) => [item_of arrival u]
                       | _ => []
                       end
  /\ statements (d_effects r) = [] /\ flushed_rows (d_effects r) = [].
Proof.
  destruct p as [|[]|arrival [u|]]; simpl; repeat case_match; simpl;
    rewrite ?app_nil_r, ?flushed_rows_read_replies, ?statements_read_replies;
    auto.
Qed.

Lemma dispatcher_epilogue_sink (d : Dispatcher) :
  statements (dispatcher_epilogue d) = []
  /\ flushed_rows (dispatcher_epilogue d) = [].
Proof.
  unfold dispatcher_epilogue. rewrite statements_app, flushed_rows_app.
  case_match; simpl;
    rewrite ?flushed_rows_read_replies, ?statements_read_replies; auto.
Qed.

Lemma writer_epilogue_sink (w : Writer) :
  statements (writer_epilogue w) = [] /\ flushed_rows (writer_epilogue w) = [].
Proof. unfold writer_epilogue. case_match; simpl; auto. Qed.

(** ** First in, first out *)

(** An event leaves the rows sent and to be sent as they are, but for the
    item the dispatcher pushes at the end. *)
Lemma pipeline_step (e : Event) (S : System) :
  pipeline (step e S) = pipeline S ++ (row_of <$> pushed e S).
Proof.
  unfold pipeline, in_flight.
  destruct e as [p|now res| |]; simpl.
  - destruct (dispatcher_live S) eqn:Hl; simpl.
    + destruct (run S) eqn:Hr; simpl.
      * destruct (dispatcher_iter_queue p (dispatcher S) (stats S)
                    (batch_queue S)) as (Hq & _ & Hf).
        rewrite flushed_rows_app, Hf, Hq, app_nil_r.
        rewrite !fmap_app, <- !app_assoc.
        destruct p as [|[]|arrival [u|]]; simpl; rewrite ?app_nil_r;
          reflexivity.
      * destruct (dispatcher_epilogue_sink (dispatcher S)) as [_ Hf].
        rewrite flushed_rows_app, Hf, !app_nil_r.
        destruct p as [|[]|arrival [u|]]; simpl; rewrite ?app_nil_r;
          reflexivity.
    + destruct p as [|[]|arrival [u|]]; simpl; rewrite ?app_nil_r;
        reflexivity.
  - rewrite app_nil_r.
    destruct (writer_live S) eqn:Hl; simpl; [|reflexivity].
    destruct (run S) eqn:Hr; simpl.
    + rewrite flushed_rows_app, writer_iter_drained.
      pose proof (drain_keeps_order (batch_queue S) (local_batch (writer S)))
        as Hd.
      destruct (writer_iter_cases now res (writer S) (batch_queue S))
        as [(_ & Hloc & _ & _ & Hrows & _) | (_ & Hloc & _ & Heff)].
      * rewrite Hloc, Hrows. unfold build_query. simpl.
        rewrite <- app_assoc, <- fmap_app, Hd. reflexivity.
      * rewrite Hloc, Heff. simpl. rewrite app_nil_r, Hd. reflexivity.
    + destruct (writer_epilogue_sink (writer S)) as [_ Hf].
      rewrite flushed_rows_app, Hf, app_nil_r. reflexivity.
  - rewrite app_nil_r.
    destruct (reporter_live S); simpl; [|reflexivity].
    destruct (run S); simpl; [|reflexivity].
    rewrite flushed_rows_app. case_match; simpl; rewrite app_nil_r;
      reflexivity.
  - rewrite app_nil_r. reflexivity.
Qed.

Lemma run_step (e : Event) (S : System) :
  run (step e S) = match e with SIGINT => false | _ => run S end.
Proof. destruct e; simpl; repeat case_match; reflexivity. Qed.

(** From a state whose loops are live, the pipeline grows by exactly the
    accepted items, in the order of their arrival. *)
Lemma pipeline_run (evs : list Event) (S : System) :
  loops_live S -> run S = true ->
  pipeline (run_events evs S) = pipeline S ++ (row_of <$> accepted evs).
Proof.
  revert S. induction evs as [|e evs IH]; intros S Hlive Hrun; simpl.
  - rewrite app_nil_r. reflexivity.
  - destruct (Hlive Hrun) as [Hd Hw].
    assert (e = SIGINT \/ e <> SIGINT) as [-> | Hne]
      by (destruct e; auto; right; discriminate).
    + rewrite app_nil_r.
      apply (run_events_invariant
               (fun S' => run S' = false /\ pipeline S' = pipeline S)).
      * intros e' S' [Hr' Hp']. split.
        -- rewrite run_step, Hr'. now destruct e'.
        -- rewrite pipeline_step, Hp'. unfold pushed.
           rewrite Hr', andb_false_r.
           destruct e' as [[|[]|? [?|]]| | |]; simpl; rewrite app_nil_r;
             reflexivity.
      * split; reflexivity.
    + rewrite IH.
      * rewrite pipeline_step, <- app_assoc, <- fmap_app. f_equal. f_equal.
        unfold pushed. rewrite Hd, Hrun.
        destruct e as [[|[]|? [?|]]| | |]; simpl; congruence.
      * now apply loops_live_step.
      * rewrite run_step. destruct e; congruence.
Qed.

(** C6. The queue is first in, first out under every interleaving of the
    dispatcher, the writer, the reporter and the interrupt: the rows the
    sink has been sent, followed by the rows of the items in the local
    batch and then in the queue, are at every moment the accepted items in
    the order the dispatcher pushed them; each drain moves the front of
    the queue to the back of the batch, and each event only adds the
    pushed item at the back. *)
Theorem durable_queue_fifo (start : Z) (evs : list Event) :
  let S := run_events evs (system_init start) in
  flushed_rows (trace S)
    ++ (row_of <$> (local_batch (writer S) ++ batch_queue S))
  = row_of <$> accepted evs
  /\ (forall e : Event,
        pipeline (step e S) = pipeline S ++ (row_of <$> pushed e S))
  /\ (forall queue local : list MessageBatch,
        (drain queue local).2 ++ (drain queue local).1 = local ++ queue).
Proof.
  intros S. split; [|split].
  - exact (pipeline_run evs (system_init start) (loops_live_init start)
             eq_refl).
  - intros e. apply pipeline_step.
  - apply drain_keeps_order.
Qed.

(** ** The size of a batch *)

Lemma batch_bounded_step (e : Event) (S : System) :
  batch_bounded S -> batch_bounded (step e S).
Proof.
  unfold batch_bounded. intros [Hloc Hst].
  destruct e as [p|now res| |]; simpl.
  - destruct (dispatcher_live S); simpl; [|auto].
    destruct (run S); simpl; rewrite statements_app.
    + destruct (dispatcher_iter_queue p (dispatcher S) (stats S)
                  (batch_queue S)) as (_ & -> & _).
      rewrite app_nil_r. auto.
    + destruct (dispatcher_epilogue_sink (dispatcher S)) as [-> _].
      rewrite app_nil_r. auto.
  - destruct (writer_live S); simpl; [|auto].
    destruct (run S); simpl; rewrite statements_app.
    + pose proof (drain_bounded (batch_queue S) _ Hloc) as Hb.
      destruct (writer_iter_cases now res (writer S) (batch_queue S))
        as [(_ & -> & _ & -> & _ & Hne) | (_ & -> & _ & ->)].
      * split; [unfold size, BATCH_SIZE; simpl; lia|].
        apply Forall_app. split; [exact Hst|].
        constructor; [|constructor].
        unfold build_query. rewrite length_fmap. split; [|exact Hb].
        destruct (drain (batch_queue S) (local_batch (writer S))).2;
          [congruence | simpl; lia].
      * simpl. rewrite app_nil_r. auto.
    + destruct (writer_epilogue_sink (writer S)) as [-> _].
      rewrite app_nil_r. auto.
  - destruct (reporter_live S); simpl; [|auto].
    destruct (run S); simpl; [|auto].
    rewrite statements_app. case_match; simpl; rewrite app_nil_r; auto.
  - auto.
Qed.

(** C10. The local batch of the writer never holds more than
    [BATCH_SIZE] items, and every statement sent to the sink has between
    one and [BATCH_SIZE] rows: the drain keeps a batch within the bound,
    and leaves items in the queue only when the batch has reached it. *)
Theorem local_batch_never_exceeds_batch_size (start : Z) (evs : list Event) :
  let S := run_events evs (system_init start) in
  size (local_batch (writer S)) <= 5000
  /\ Forall (fun rows : list Row => 1 <= Z.of_nat (length rows) <= 5000)
            (statements (trace S))
  /\ (forall queue local : list MessageBatch,
        size local <= 5000 ->
        size (drain queue local).2 <= 5000
        /\ ((drain queue local).1 <> [] -> size (drain queue local).2 = 5000)).
Proof.
  intros S.
  assert (Hinv : batch_bounded S).
  { apply (run_events_invariant batch_bounded batch_bounded_step evs).
    split; simpl; [unfold size, BATCH_SIZE; simpl; lia | constructor]. }
  destruct Hinv as [Hloc Hst]. split; [exact Hloc|]. split; [exact Hst|].
  intros queue local Hlocal.
  pose proof (drain_bounded queue local Hlocal) as Hb.
  split; [exact Hb|]. intros Hleft.
  destruct (drain_stops_full queue local) as [Hnil | Hfull];
    [congruence | unfold BATCH_SIZE in *; lia].
Qed.

(** A queue of 5001 items drained into an empty batch: 5000 are taken and
    one is left. *)
Lemma local_batch_never_exceeds_batch_size_witness :
  let item := mkBatch "AAPL" (150 # 1) 10 0 (0 # 1) in
  let queue := replicate (Z.to_nat 5001) item in
  size [] <= 5000
  /\ (drain queue []).1 <> []
  /\ size (drain queue []).2 = 5000
  /\ (drain queue []).1 = [item].
Proof.
  intros item queue.
  destruct (local_batch_never_exceeds_batch_size 0 []) as (_ & _ & Hdrain).
  assert (Hlocal : size [] <= 5000) by (vm_compute; discriminate).
  assert (Hleft : (drain queue []).1 <> []) by (vm_compute; discriminate).
  destruct (Hdrain queue [] Hlocal) as [_ Hfull].
  split; [exact Hlocal|]. split; [exact Hleft|].
  split; [exact (Hfull Hleft) | vm_compute; reflexivity].
Defined.

(** ** The flush trigger *)

Lemma should_flush_iff (local : list MessageBatch) (elapsed : Z) :
  should_flush local elapsed = true
  <-> local <> [] /\ (BATCH_SIZE <= size local \/ FLUSH_INTERVAL_MS <= elapsed).
Proof.
  unfold should_flush. rewrite andb_true_iff, orb_true_iff, negb_true_iff.
  rewrite !Z.geb_le. destruct local; simpl; intuition congruence.
Qed.

(** C2 as stated fails.  The trigger as the specification words it,
    without the guard on an empty batch, is not the one of the loop: with nothing drained and 100
    ms elapsed, nothing is sent. *)
Lemma flush_trigger_without_guard_fails :
  ~ (forall (now : Z) (res : ExecStatus) (w : Writer)
            (queue : list MessageBatch),
       flushed (writer_iter now res w queue) = true
       <-> (BATCH_SIZE <= size (drain queue (local_batch w)).2
            \/ FLUSH_INTERVAL_MS <= elapsed_ms now (last_flush w))).
Proof.
  intros H.
  destruct (H 100000000 PGRES_COMMAND_OK (writer_init 0) []) as [_ Hflush].
  discriminate Hflush. right. vm_compute. discriminate.
Qed.

(** C2, amended. In every iteration of the writer a statement is sent to
    the sink if and only if the local batch, after the drain, is not empty
    and either holds at least 5000 items or at least 100 ms have elapsed
    since the last flush; below both thresholds, and on an empty batch,
    nothing is sent. *)
Theorem flush_iff_nonempty_and_trigger (now : Z) (res : ExecStatus)
    (w : Writer) (queue : list MessageBatch) :
  let batch := (drain queue (local_batch w)).2 in
  let elapsed := elapsed_ms now (last_flush w) in
  (flushed (writer_iter now res w queue) = true
   <-> batch <> [] /\ (5000 <= size batch \/ 100 <= elapsed))
  /\ (size batch < 5000 -> elapsed < 100 ->
      flushed (writer_iter now res w queue) = false)
  /\ (batch = [] -> flushed (writer_iter now res w queue) = false).
Proof.
  intros batch elapsed. rewrite writer_iter_flushed.
  fold batch. fold elapsed.
  pose proof (should_flush_iff batch elapsed) as Hiff.
  unfold BATCH_SIZE, FLUSH_INTERVAL_MS in Hiff.
  split; [exact Hiff|]. split.
  - intros Hs He. apply not_true_is_false. rewrite Hiff. lia.
  - intros Hb. apply not_true_is_false. rewrite Hiff. tauto.
Qed.

(** ** Items in flight *)

Lemma in_flight_step (e : Event) (S : System) :
  suffix (in_flight (step e S)) (in_flight S ++ pushed e S).
Proof.
  unfold in_flight.
  destruct e as [p|now res| |]; simpl; rewrite ?app_nil_r; try reflexivity.
  - destruct (dispatcher_live S) eqn:Hl; simpl.
    + destruct (run S) eqn:Hr; simpl.
      * destruct (dispatcher_iter_queue p (dispatcher S) (stats S)
                    (batch_queue S)) as (-> & _ & _).
        rewrite <- app_assoc.
        destruct p as [|[]|arrival [u|]]; simpl; rewrite ?app_nil_r;
          reflexivity.
      * destruct p as [|[]|arrival [u|]]; simpl; rewrite ?app_nil_r;
          reflexivity.
    + destruct p as [|[]|arrival [u|]]; simpl; rewrite ?app_nil_r;
        reflexivity.
  - destruct (writer_live S); simpl; [|reflexivity].
    destruct (run S); simpl; [|reflexivity].
    rewrite writer_iter_drained.
    rewrite <- (drain_keeps_order (batch_queue S) (local_batch (writer S))).
    destruct (writer_iter_cases now res (writer S) (batch_queue S))
      as [(_ & -> & _) | (_ & -> & _)]; simpl.
    + apply suffix_app_r. reflexivity.
    + reflexivity.
  - destruct (reporter_live S); simpl; [|reflexivity].
    destruct (run S); reflexivity.
Qed.

(** What is in flight later is a tail of what was in flight followed by
    what the dispatcher accepted since. *)
Lemma in_flight_run (evs : list Event) (S : System) :
  loops_live S ->
  suffix (in_flight (run_events evs S))
         (in_flight S ++ (if run S then accepted evs else [])).
Proof.
  revert S. induction evs as [|e evs IH]; intros S Hlive.
  - simpl. destruct (run S); rewrite app_nil_r; reflexivity.
  - change (run_events (e :: evs) S) with (run_events evs (step e S)).
    etransitivity; [apply IH, loops_live_step, Hlive|].
    assert (Hpush : pushed e S ++ (if run (step e S) then accepted evs else [])
                    = if run S then accepted (e :: evs) else []).
    { rewrite run_step. unfold pushed. destruct (run S) eqn:Hr.
      - destruct (Hlive Hr) as [-> _].
        destruct e as [[|[]|? [?|]]| | |]; reflexivity.
      - rewrite andb_false_r.
        destruct e as [[|[]|? [?|]]| | |]; reflexivity. }
    rewrite <- Hpush, app_assoc. apply suffix_app, in_flight_step.
Qed.

(** The thresholds from both sides: 4999 items at 99 ms are kept; the
    same at 100 ms, or 5000 items at 99 ms, are sent. *)
Lemma flush_iff_nonempty_and_trigger_witness :
  let item := mkBatch "AAPL" (150 # 1) 10 0 (0 # 1) in
  let queue := replicate (Z.to_nat 4999) item in
  let w := writer_init 0 in
  (size (drain queue (local_batch w)).2 < 5000
   /\ elapsed_ms 99999999 (last_flush w) < 100)
  /\ flushed (writer_iter 99999999 PGRES_COMMAND_OK w queue) = false
  /\ flushed (writer_iter 100000000 PGRES_COMMAND_OK w queue) = true
  /\ flushed (writer_iter 99999999 PGRES_COMMAND_OK w (item :: queue)) = true.
Proof.
  intros item queue w.
  assert (Hsize : size (drain queue (local_batch w)).2 < 5000)
    by (vm_compute; reflexivity).
  assert (Helapsed : elapsed_ms 99999999 (last_flush w) < 100)
    by (vm_compute; reflexivity).
  split; [split; assumption|]. split; [|split].
  - exact (proj1 (proj2 (flush_iff_nonempty_and_trigger
                           99999999 PGRES_COMMAND_OK w queue))
                 Hsize Helapsed).
  - apply (proj1 (flush_iff_nonempty_and_trigger
                    100000000 PGRES_COMMAND_OK w queue)).
    split; [vm_compute; discriminate | right; vm_compute; discriminate].
  - apply (proj1 (flush_iff_nonempty_and_trigger
                    99999999 PGRES_COMMAND_OK w (item :: queue))).
    split; [vm_compute; discriminate | left; vm_compute; discriminate].
Defined.

(** ** A failed flush *)

Lemma writer_tick_running (S : System) (now : Z) (res : ExecStatus) :
  run S = true -> writer_live S = true ->
  step (WriterTick now res) S
  = let r := writer_iter now res (writer S) (batch_queue S) in
    mkSystem true (stats S) (w_queue r) (dispatcher S) (dispatcher_live S)
             (w_local r) true (reporter_live S) (trace S ++ w_effects r).
Proof. intros Hrun Hw. simpl. rewrite Hw, Hrun. reflexivity. Qed.

(** What an iteration that flushes does, for either answer of the sink. *)
Lemma writer_iter_flush_spec (now : Z) (res : ExecStatus) (w : Writer)
    (queue : list MessageBatch) :
  flushed (writer_iter now res w queue) = true ->
  let r := writer_iter now res w queue in
  let batch := (drain queue (local_batch w)).2 in
  batch <> [] /\ batch ++ w_queue r = local_batch w ++ queue
  /\ local_batch (w_local r) = []
  /\ w_effects r = PQexec (build_query batch) ::
                   match res with
                   | PGRES_COMMAND_OK => []
                   | PGRES_FAILED errmsg => [Print (BatchInsertFailed errmsg)]
                   end
  /\ total_written (w_local r)
     = match res with
       | PGRES_COMMAND_OK => ll_add (total_written w) (size batch)
       | PGRES_FAILED _ => total_written w
       end.
Proof.
  intros Hflush r batch. subst r batch.
  rewrite writer_iter_flushed in Hflush. rewrite writer_iter_drained.
  pose proof (drain_keeps_order queue (local_batch w)) as Horder.
  unfold writer_iter.
  destruct (drain queue (local_batch w)) as [queue' batch].
  simpl in *. rewrite Hflush.
  apply should_flush_iff in Hflush as [Hne _].
  destruct res; simpl; auto.
Qed.

(** C8. An iteration of the writer that attempts a flush leaves the local
    batch empty whatever the sink answers, takes from the queue without
    giving back, and leaves [run], the threads and the statistics as they
    were; a failure is one printed line and leaves [total_written]
    unchanged.  From then on what is in flight is a tail of the queue left
    and of the items accepted since, and the rows sent later are theirs:
    the batch is neither sent again nor queued again. *)
Theorem failed_flush_discards_batch (S : System) (now : Z) (res : ExecStatus) :
  run S = true -> dispatcher_live S = true -> writer_live S = true ->
  flushed (writer_iter now res (writer S) (batch_queue S)) = true ->
  let S' := step (WriterTick now res) S in
  local_batch (writer S') = []
  /\ (exists batch,
        batch <> [] /\ batch ++ batch_queue S' = in_flight S
        /\ trace S' = trace S ++
             PQexec (build_query batch) ::
             match res with
             | PGRES_COMMAND_OK => []
             | PGRES_FAILED errmsg => [Print (BatchInsertFailed errmsg)]
             end
        /\ total_written (writer S')
           = match res with
             | PGRES_COMMAND_OK => ll_add (total_written (writer S)) (size batch)
             | PGRES_FAILED _ => total_written (writer S)
             end)
  /\ (run S' = true /\ writer_live S' = true
      /\ dispatcher_live S' = dispatcher_live S
      /\ reporter_live S' = reporter_live S
      /\ dispatcher S' = dispatcher S /\ stats S' = stats S)
  /\ (forall evs : list Event,
        let S'' := run_events evs S' in
        suffix (in_flight S'') (batch_queue S' ++ accepted evs)
        /\ flushed_rows (trace S'') ++ (row_of <$> in_flight S'')
           = flushed_rows (trace S')
               ++ (row_of <$> (batch_queue S' ++ accepted evs))).
Proof.
  intros Hrun Hd Hw Hflush S'.
  assert (Hlive' : loops_live S').
  { apply loops_live_step. intros _. auto. }
  assert (Hrun' : run S' = true) by (subst S'; rewrite run_step; exact Hrun).
  destruct (writer_iter_flush_spec _ _ _ _ Hflush)
    as (Hne & Horder & Hloc & Heff & Htotal).
  assert (HS' : S' = step (WriterTick now res) S) by reflexivity.
  rewrite (writer_tick_running S now res Hrun Hw) in HS'.
  cbv zeta in HS'. clearbody S'. subst S'. simpl in *.
  split; [exact Hloc|]. split; [|split].
  - exists (drain (batch_queue S) (local_batch (writer S))).2.
    rewrite Heff. auto.
  - auto 10.
  - intros evs.
    set (S' := mkSystem _ _ _ _ _ _ _ _ _) in *.
    pose proof (in_flight_run evs S' Hlive') as Hsuf.
    pose proof (pipeline_run evs S' Hlive' Hrun') as Hpipe.
    unfold pipeline in Hpipe. unfold in_flight at 2 in Hsuf.
    unfold in_flight at 2 in Hpipe. subst S'. simpl in Hsuf, Hpipe.
    rewrite Hloc in Hsuf, Hpipe. simpl in Hsuf, Hpipe.
    split; [exact Hsuf|].
    rewrite Hpipe, fmap_app, app_assoc. reflexivity.
Qed.

(** A batch of one item refused by the sink. *)
Lemma failed_flush_discards_batch_witness :
  let u := mkUpdate "AAPL" (150 # 1) 10 1000 in
  let S := run_events [Poll (Message 1500 (Some u))] (system_init 0) in
  let res := PGRES_FAILED "connection lost" in
  let S' := step (WriterTick 100000000 res) S in
  (run S = true /\ dispatcher_live S = true /\ writer_live S = true
   /\ flushed (writer_iter 100000000 res (writer S) (batch_queue S)) = true)
  /\ local_batch (writer S') = []
  /\ batch_queue S' = []
  /\ run S' = true /\ writer_live S' = true
  /\ statements (trace S') = [[row_of (item_of 1500 u)]].
Proof.
  intros u S res S'.
  assert (H1 : run S = true) by reflexivity.
  assert (H2 : dispatcher_live S = true) by reflexivity.
  assert (H3 : writer_live S = true) by reflexivity.
  assert (H4 : flushed (writer_iter 100000000 res (writer S) (batch_queue S))
               = true) by reflexivity.
  destruct (failed_flush_discards_batch S 100000000 res H1 H2 H3 H4)
    as (Hloc & _ & (Hrun & Hlive & _) & _).
  split; [auto|]. split; [exact Hloc|]. split; [reflexivity|].
  split; [exact Hrun|]. split; [exact Hlive|]. reflexivity.
Defined.

(** ** Shutdown of the writer *)

(** The writer that finds [run] cleared leaves its loop: it prints, sends
    nothing, and what is in flight stays where it is. *)
Lemma writer_exit_sends_nothing (S : System) (now : Z) (res : ExecStatus) :
  run S = false -> writer_live S = true ->
  let S' := step (WriterTick now res) S in
  writer_live S' = false
  /\ statements (trace S') = statements (trace S)
  /\ local_batch (writer S') = local_batch (writer S)
  /\ batch_queue S' = batch_queue S.
Proof.
  intros Hrun Hw. simpl. rewrite Hw, Hrun. simpl.
  destruct (writer_epilogue_sink (writer S)) as [Hst _].
  rewrite statements_app, Hst, app_nil_r. auto.
Qed.

(** Once the writer has left its loop the sink is sent nothing more and
    the local batch is never touched again. *)
Lemma exited_writer_sends_nothing (evs : list Event) (S : System) :
  writer_live S = false ->
  let S' := run_events evs S in
  writer_live S' = false
  /\ statements (trace S') = statements (trace S)
  /\ local_batch (writer S') = local_batch (writer S).
Proof.
  intros Hw.
  apply (run_events_invariant
           (fun S' => writer_live S' = false
                      /\ statements (trace S') = statements (trace S)
                      /\ local_batch (writer S') = local_batch (writer S)));
    [|auto].
  clear. intros e S' (Hw & Hst & Hloc).
  destruct e as [p|now res| |]; simpl; rewrite ?Hw; simpl; auto.
  - destruct (dispatcher_live S'); simpl; auto.
    destruct (run S'); simpl; rewrite statements_app.
    + destruct (dispatcher_iter_queue p (dispatcher S') (stats S')
                  (batch_queue S')) as (_ & -> & _).
      rewrite app_nil_r. auto.
    + destruct (dispatcher_epilogue_sink (dispatcher S')) as [-> _].
      rewrite app_nil_r. auto.
  - destruct (reporter_live S'); simpl; auto.
    destruct (run S'); simpl; auto.
    rewrite statements_app. case_match; simpl; rewrite app_nil_r; auto.
Qed.

(** C1 fails on the code.  One item is drained into the local batch 10 ms
    after the start (below both thresholds, so it is kept), a second one is
    queued, and the interrupt arrives.  The writer then leaves its loop:
    it prints "Flushing 1 remaining DB writes..." and the total, and calls
    [PQexec] neither for the item of its batch nor for the item of the
    queue, then or ever after. *)
Theorem shutdown_skips_final_flush :
  let a := mkUpdate "AAPL" (150 # 1) 10 1000 in
  let b := mkUpdate "GOOG" (99 # 1) 5 2000 in
  let S := run_events [Poll (Message 1500 (Some a));
                       WriterTick 10000000 PGRES_COMMAND_OK;
                       Poll (Message 2500 (Some b));
                       SIGINT;
                       WriterTick 20000000 PGRES_COMMAND_OK]
                      (system_init 0) in
  writer_live S = false
  /\ local_batch (writer S) = [item_of 1500 a]
  /\ batch_queue S = [item_of 2500 b]
  /\ trace S = [AppendSET "AAPL" (150 # 1); AppendSET "GOOG" (99 # 1);
                Print (FlushingRemaining 1); Print (TotalWritten 0)]
  /\ (forall evs : list Event,
        statements (trace (run_events evs S)) = []
        /\ local_batch (writer (run_events evs S)) = [item_of 1500 a]).
Proof.
  intros a b S.
  assert (Hw : writer_live S = false) by reflexivity.
  repeat split; try reflexivity;
    destruct (exited_writer_sends_nothing evs S Hw) as (_ & Hst & Hloc);
    [rewrite Hst | rewrite Hloc]; reflexivity.
Qed.

(** ** What the dispatcher counts *)

Lemma wrap64_add_l (a b : Z) : wrap64 (wrap64 a + b) = wrap64 (a + b).
Proof.
  unfold wrap64. f_equal.
  replace ((a + 2 ^ 63) mod 2 ^ 64 - 2 ^ 63 + b + 2 ^ 63)
    with ((a + 2 ^ 63) mod 2 ^ 64 + b) by lia.
  rewrite Zplus_mod_idemp_l. f_equal. lia.
Qed.

Lemma record_all_count (latencies : list Z) (s : LatencyStats) :
  wrap64 (total_processed (record_all latencies s))
  = wrap64 (total_processed s + Z.of_nat (length latencies)).
Proof.
  revert s. induction latencies as [|x xs IH]; intros s.
  - simpl. f_equal. lia.
  - change (record_all (x :: xs) s)
      with (record_all xs (update_latency_stats x s)).
    rewrite IH. simpl total_processed. unfold ll_add.
    rewrite wrap64_add_l. f_equal. simpl length. lia.
Qed.

Lemma record_all_count_range (latencies : list Z) (s : LatencyStats) :
  in_ll (total_processed s) ->
  in_ll (total_processed (record_all latencies s)).
Proof.
  revert s. induction latencies as [|x xs IH]; intros s Hs; [exact Hs|].
  apply IH. simpl. apply wrap64_range.
Qed.

Lemma recorded_length (evs : list Event) :
  length (recorded evs) = valid_payloads evs.
Proof.
  induction evs as [|[[|[]|? [?|]]| | |] evs IH]; simpl; congruence.
Qed.

Lemma recorded_are_latencies (evs : list Event) :
  Forall is_latency (recorded evs).
Proof.
  induction evs as [|[[|[]|? [?|]]| | |] evs IH]; simpl; auto.
  constructor; [apply latency_of_is_latency | exact IH].
Qed.

(** The payloads an event makes the dispatcher count in [msg_count]. *)
Lemma dispatcher_iter_counts (p : Polled) (d : Dispatcher) (s : LatencyStats)
    (queue : list MessageBatch) :
  let r := dispatcher_iter p d s queue in
  d_stats r = match p with
              | Message arrival (Some u) =>
                  update_latency_stats
                    (latency_of arrival (upd_timestamp_ns u)) s
              | _ => s
              end
  /\ msg_count (d_local r) = match p with
                            | Message _ _ => ll_add (msg_count d) 1
                            | _ => msg_count d
                            end.
Proof.
  destruct p as [|[]|arrival [u|]]; simpl; repeat case_match; auto.
Qed.

(** From a state whose loops are live: the statistics are those of the
    latencies recorded, and [msg_count] has counted every payload. *)
Lemma dispatcher_run (evs : list Event) (S : System) :
  loops_live S ->
  let S' := run_events evs S in
  stats S' = record_all (if run S then recorded evs else []) (stats S)
  /\ wrap64 (msg_count (dispatcher S'))
     = wrap64 (msg_count (dispatcher S)
               + (if run S
                  then Z.of_nat (valid_payloads evs + malformed_payloads evs)
                  else 0)).
Proof.
  revert S. induction evs as [|e evs IH]; intros S Hlive.
  - simpl. destruct (run S); simpl; split; try reflexivity; f_equal; lia.
  - change (run_events (e :: evs) S) with (run_events evs (step e S)).
    cbv zeta. destruct (IH (step e S) (loops_live_step e S Hlive))
      as [-> ->].
    rewrite run_step. destruct (run S) eqn:Hrun.
    + destruct (Hlive Hrun) as [Hd Hw].
      destruct e as [p|now res| |]; simpl; rewrite ?Hd, ?Hw, ?Hrun; simpl.
      * destruct (dispatcher_iter_counts p (dispatcher S) (stats S)
                    (batch_queue S)) as [-> ->].
        destruct p as [|[]|arrival [u|]]; simpl; split; try reflexivity;
          unfold ll_add; rewrite ?wrap64_add_l; f_equal; lia.
      * split; reflexivity.
      * destruct (reporter_live S); split; reflexivity.
      * split; [reflexivity | f_equal; lia].
    + destruct e as [p|now res| |]; simpl; rewrite ?Hrun; simpl;
        repeat case_match; simpl; split; reflexivity.
Qed.

Lemma msg_count_range (evs : list Event) (S : System) :
  in_ll (msg_count (dispatcher S)) ->
  in_ll (msg_count (dispatcher (run_events evs S))).
Proof.
  apply (run_events_invariant (fun S => in_ll (msg_count (dispatcher S)))).
  clear. intros e S HS.
  destruct e as [p|now res| |]; simpl; repeat case_match; simpl; auto.
  destruct (dispatcher_iter_counts p (dispatcher S) (stats S) (batch_queue S))
    as [_ ->].
  destruct p; auto. apply wrap64_range.
Qed.

(** C3 as stated fails.  No integer variable of the process counts the
    payloads that failed to decode: after two valid payloads (latencies 5 and 7 ns) and one
    malformed payload, none of them holds 1. *)
Lemma no_parse_error_counter :
  ~ (exists c : Counter,
       forall (start : Z) (evs : list Event),
         read c (run_events evs (system_init start))
         = Z.of_nat (malformed_payloads evs)).
Proof.
  intros [c Hc].
  specialize (Hc 0 [Poll (Message 1005 (Some (mkUpdate "AAPL" (150 # 1) 10 1000)));
                    Poll (Message 1007 (Some (mkUpdate "AAPL" (151 # 1) 10 1000)));
                    Poll (Message 1009 None)]).
  destruct c; vm_compute in Hc; discriminate.
Qed.

(** C3, amended. A payload that fails to decode is dropped: nothing is
    queued, nothing is sent to the cache, the statistics (the processed
    count among them) are unchanged; the only trace it leaves is in
    [msg_count], which counts every payload.  After [N] valid and [M]
    malformed payloads the processed count is [N] and [msg_count] is
    [N + M]. *)
Theorem malformed_payload_is_dropped (start : Z) (evs : list Event) :
  let S := run_events evs (system_init start) in
  let N := Z.of_nat (valid_payloads evs) in
  let M := Z.of_nat (malformed_payloads evs) in
  (N + M <= LLONG_MAX ->
   total_processed (stats S) = N /\ msg_count (dispatcher S) = N + M)
  /\ (forall arrival : Z,
        run S = true ->
        let S' := step (Poll (Message arrival None)) S in
        batch_queue S' = batch_queue S
        /\ trace S' = trace S
        /\ stats S' = stats S
        /\ redis_pipeline_count (dispatcher S')
           = redis_pipeline_count (dispatcher S)
        /\ msg_count (dispatcher S') = ll_add (msg_count (dispatcher S)) 1).
Proof.
  intros S N M.
  pose proof (run_events_invariant loops_live loops_live_step evs _
                (loops_live_init start)) as Hlive.
  fold S in Hlive. split.
  - intros Hsmall.
    destruct (dispatcher_run evs (system_init start) (loops_live_init start))
      as [Hstats Hcount].
    fold S in Hstats, Hcount. simpl in Hstats, Hcount. split.
    + rewrite Hstats.
      rewrite <- (wrap64_id (total_processed _)).
      * rewrite record_all_count, recorded_length. simpl.
        apply wrap64_id. subst N M. unfold in_ll, LLONG_MIN, LLONG_MAX in *.
        lia.
      * apply record_all_count_range. simpl. unfold in_ll, LLONG_MIN, LLONG_MAX.
        lia.
    + rewrite <- (wrap64_id (msg_count _)).
      * rewrite Hcount.
        replace (0 + Z.of_nat (valid_payloads evs + malformed_payloads evs))
          with (N + M) by (subst N M; lia).
        apply wrap64_id. subst N M.
        unfold in_ll, LLONG_MIN, LLONG_MAX in *. lia.
      * apply msg_count_range. simpl. unfold in_ll, LLONG_MIN, LLONG_MAX.
        lia.
  - intros arrival Hrun. destruct (Hlive Hrun) as [Hd _].
    simpl. rewrite Hd, Hrun. simpl. rewrite app_nil_r. auto.
Qed.

(** Two valid payloads and a malformed one. *)
Lemma malformed_payload_is_dropped_witness :
  let evs := [Poll (Message 1005 (Some (mkUpdate "AAPL" (150 # 1) 10 1000)));
              Poll (Message 1009 None);
              Poll (Message 1007 (Some (mkUpdate "MSFT" (151 # 1) 10 1000)))] in
  let S := run_events evs (system_init 0) in
  (2 + 1 <= LLONG_MAX /\ run S = true)
  /\ total_processed (stats S) = 2 /\ msg_count (dispatcher S) = 3
  /\ batch_queue (step (Poll (Message 1010 None)) S) = batch_queue S
  /\ trace (step (Poll (Message 1010 None)) S) = trace S.
Proof.
  intros evs S.
  destruct (malformed_payload_is_dropped 0 evs) as [Hcount Hdrop].
  assert (Hsmall : 2 + 1 <= LLONG_MAX) by (unfold LLONG_MAX; lia).
  assert (Hrun : run S = true) by reflexivity.
  destruct (Hcount Hsmall) as [HN HM].
  destruct (Hdrop 1010 Hrun) as (Hq & Ht & _).
  split; [split; assumption|]. split; [exact HN|]. split; [exact HM|].
  split; [exact Hq | exact Ht].
Defined.

(** ** Latencies are never negative *)

Lemma accepted_latency_nonneg (evs : list Event) :
  Forall (fun r => (0 <= row_latency_ms r)%Q) (row_of <$> accepted evs).
Proof.
  induction evs as [|[[|[]|arrival [u|]]| | |] evs IH]; simpl; auto.
  constructor; [|exact IH]. apply (item_latency_nonneg arrival u).
Qed.

(** C5. The latency the dispatcher computes for a decoded event is the
    difference of the two timestamps clamped at zero: [max 0] of the 64-bit
    difference, which is [max 0 (arrival - produce)] whenever that
    difference is a [long long].  It is the value handed to
    [update_latency_stats] and, in milliseconds, the [latency_ms] of the
    item pushed; so every latency recorded, the [latency_ms] of every item
    in the local batch and in the queue, and that of every row sent to the
    sink are greater than or equal to zero, whatever the timestamps. *)
Theorem latency_is_clamped (start : Z) (evs : list Event) :
  let S := run_events evs (system_init start) in
  (forall arrival produce : Z,
     latency_of arrival produce = Z.max 0 (ll_sub arrival produce)
     /\ 0 <= latency_of arrival produce
     /\ (in_ll (arrival - produce) ->
         latency_of arrival produce = Z.max 0 (arrival - produce)))
  /\ (forall (arrival : Z) (u : MarketUpdate) (d : Dispatcher)
             (s : LatencyStats) (queue : list MessageBatch),
        let r := dispatcher_iter (Message arrival (Some u)) d s queue in
        let latency_ns := latency_of arrival (upd_timestamp_ns u) in
        d_stats r = update_latency_stats latency_ns s
        /\ d_queue r
           = queue ++ [mkBatch (upd_ticker u) (upd_price u) (upd_volume u)
                               (upd_timestamp_ns u) (ns_to_ms latency_ns)])
  /\ (stats S = record_all (recorded evs) stats_init
      /\ Forall (fun x => 0 <= x) (recorded evs))
  /\ Forall (fun m => (0 <= latency_ms m)%Q)
            (local_batch (writer S) ++ batch_queue S)
  /\ Forall (fun r => (0 <= row_latency_ms r)%Q) (flushed_rows (trace S)).
Proof.
  intros S. split; [|split; [|split]].
  - intros arrival produce. split; [apply latency_of_clamps|]. split.
    + apply latency_of_is_latency.
    + apply latency_of_exact.
  - intros arrival u d s queue. simpl. case_match; auto.
  - split.
    + exact (proj1 (dispatcher_run evs (system_init start)
                      (loops_live_init start))).
    + eapply Forall_impl; [apply recorded_are_latencies|].
      intros x [Hx _]. exact Hx.
  - pose proof (pipeline_run evs (system_init start) (loops_live_init start)
                  eq_refl) as Hpipe.
    pose proof (accepted_latency_nonneg evs) as Hacc.
    fold S in Hpipe. unfold pipeline, in_flight in Hpipe. simpl in Hpipe.
    rewrite <- Hpipe in Hacc. apply Forall_app in Hacc as [Hsent Hflight].
    split; [|exact Hsent].
    rewrite Forall_fmap in Hflight. exact Hflight.
Qed.

(** A producer clock 500 ns ahead of the consumer clock: the latency is
    0, not -500. *)
Lemma latency_is_clamped_witness :
  let u := mkUpdate "AAPL" (150 # 1) 10 2000 in
  let S := run_events [Poll (Message 1500 (Some u))] (system_init 0) in
  in_ll (1500 - 2000)
  /\ latency_of 1500 2000 = Z.max 0 (1500 - 2000)
  /\ latency_of 1500 2000 = 0
  /\ min_latency_ns (stats S) = 0
  /\ Forall (fun m => (0 <= latency_ms m)%Q)
            (local_batch (writer S) ++ batch_queue S).
Proof.
  intros u S.
  destruct (latency_is_clamped 0 [Poll (Message 1500 (Some u))])
    as (Hclamp & _ & _ & Hflight & _).
  destruct (Hclamp 1500 2000) as (_ & _ & Hexact).
  assert (Hr : in_ll (1500 - 2000))
    by (unfold in_ll, LLONG_MIN, LLONG_MAX; lia).
  split; [exact Hr|]. split; [exact (Hexact Hr)|].
  split; [reflexivity|]. split; [reflexivity | exact Hflight].
Defined.

(** ** The stats reporter *)

Lemma reporter_skip_is_silent (S : System) :
  total_processed (stats S) = 0 ->
  trace (step ReporterTick S) = trace S
  /\ stats (step ReporterTick S) = stats S
  /\ batch_queue (step ReporterTick S) = batch_queue S.
Proof.
  intros HS. simpl.
  destruct (reporter_live S), (run S); simpl; auto.
  unfold stats_reporter_iter. rewrite HS. simpl. rewrite app_nil_r. auto.
Qed.

(** C9. An iteration of the reporter never divides by zero: with a
    processed count of zero it skips the report, prints nothing and changes
    nothing; otherwise the division of the total latency by the count has
    a result, and the report carries it. *)
Theorem reporter_never_divides_by_zero (s : LatencyStats)
    (queue : list MessageBatch) :
  stats_reporter_iter s queue <> DividedByZero
  /\ (stats_reporter_iter s queue = Skipped <-> total_processed s = 0)
  /\ (total_processed s <> 0 ->
      exists quotient : Z,
        ll_div (total_latency_ns s) (total_processed s) = Some quotient
        /\ quotient
           = wrap64 (Z.quot (total_latency_ns s) (total_processed s))
        /\ stats_reporter_iter s queue
           = Printed (mkReport (total_processed s) (wrap32 (size queue))
                               (ns_to_ms quotient)
                               (ns_to_ms (min_latency_ns s))
                               (ns_to_ms (max_latency_ns s))))
  /\ (forall S : System,
        total_processed (stats S) = 0 ->
        trace (step ReporterTick S) = trace S
        /\ stats (step ReporterTick S) = stats S
        /\ batch_queue (step ReporterTick S) = batch_queue S).
Proof.
  split; [|split; [|split; [|exact reporter_skip_is_silent]]];
    unfold stats_reporter_iter, ll_div;
    destruct (Z.eqb_spec (total_processed s) 0) as [Hz | Hnz];
    try discriminate; try (split; congruence).
  - intros Hne. congruence.
  - intros _. eexists. repeat split.
Qed.

(** Before any event is processed nothing is printed; after one event with
    latency 7 ns the average is 7 ns. *)
Lemma reporter_never_divides_by_zero_witness :
  let S0 := system_init 0 in
  let S1 := step (Poll (Message 1007 (Some (mkUpdate "AAPL" (150 # 1) 10 1000))))
                 S0 in
  (total_processed (stats S0) = 0 /\ total_processed (stats S1) <> 0)
  /\ trace (step ReporterTick S0) = []
  /\ (exists quotient : Z,
        ll_div (total_latency_ns (stats S1)) (total_processed (stats S1))
        = Some quotient /\ quotient = 7).
Proof.
  intros S0 S1.
  assert (H0 : total_processed (stats S0) = 0) by reflexivity.
  assert (H1 : total_processed (stats S1) <> 0) by discriminate.
  split; [split; assumption|]. split.
  - destruct (reporter_never_divides_by_zero (stats S0) (batch_queue S0))
      as (_ & _ & _ & Hskip).
    exact (proj1 (Hskip S0 H0)).
  - destruct (reporter_never_divides_by_zero (stats S1) (batch_queue S1))
      as (_ & _ & Hdiv & _).
    destruct (Hdiv H1) as (quotient & Hq & Hval & _).
    exists quotient. split; [exact Hq|]. rewrite Hval. reflexivity.
Defined.

(** ** The cache pipeline *)

Lemma outstanding_from_cons (n : Z) (e : Effect) (t : list Effect) :
  outstanding_from n (e :: t) = outstanding_from (n + delta e) t.
Proof. destruct e; simpl; f_equal; lia. Qed.

Lemma outstanding_from_shift (n : Z) (t : list Effect) :
  outstanding_from n t = n + outstanding t.
Proof.
  unfold outstanding. revert n. induction t as [|e t IH]; intros n.
  - simpl. lia.
  - rewrite !outstanding_from_cons, (IH (n + delta e)), (IH (0 + delta e)).
    lia.
Qed.

Lemma outstanding_app (t1 t2 : list Effect) :
  outstanding (t1 ++ t2) = outstanding t1 + outstanding t2.
Proof.
  unfold outstanding at 1 2. generalize 0.
  induction t1 as [|e t1 IH]; intros n.
  - simpl. apply outstanding_from_shift.
  - change ((e :: t1) ++ t2) with (e :: (t1 ++ t2)).
    rewrite !outstanding_from_cons, IH. reflexivity.
Qed.

Lemma outstanding_read_replies (c : Z) :
  0 <= c -> outstanding (read_replies c) = - c.
Proof.
  intros Hc. unfold read_replies. rewrite <- (Z2Nat.id c) at 2 by exact Hc.
  induction (Z.to_nat c) as [|n IH].
  - reflexivity.
  - change (replicate (S n) GetReply) with (GetReply :: replicate n GetReply).
    unfold outstanding in *. rewrite outstanding_from_cons.
    rewrite outstanding_from_shift. fold (outstanding (replicate n GetReply)).
    unfold outstanding. rewrite IH. simpl delta. lia.
Qed.

Lemma bounded_from_range (n : Z) (t : list Effect) :
  bounded_from n t -> 0 <= n <= 100.
Proof. destruct t; simpl; tauto. Qed.

Lemma bounded_from_app (n : Z) (t1 t2 : list Effect) :
  bounded_from n t1 -> bounded_from (n + outstanding t1) t2 ->
  bounded_from n (t1 ++ t2).
Proof.
  revert n. induction t1 as [|e t1 IH]; intros n H1 H2.
  - simpl in *. replace (n + outstanding []) with n in H2; [exact H2|].
    unfold outstanding. simpl. lia.
  - simpl in *. destruct H1 as [Hn H1]. split; [exact Hn|].
    apply IH; [exact H1|].
    unfold outstanding in H2. rewrite outstanding_from_cons in H2.
    rewrite outstanding_from_shift in H2.
    replace (n + delta e + outstanding t1)
      with (n + (0 + delta e + outstanding t1)) by lia.
    exact H2.
Qed.

(** Along a bounded list every prefix has between 0 and 100 commands
    outstanding. *)
Lemma bounded_from_take (n : Z) (t : list Effect) (k : nat) :
  bounded_from n t -> 0 <= n + outstanding (take k t) <= 100.
Proof.
  revert n k. induction t as [|e t IH]; intros n k H.
  - rewrite take_nil. unfold outstanding. simpl in *. lia.
  - destruct k as [|k]; simpl in H; destruct H as [Hn H].
    + unfold outstanding. simpl. lia.
    + simpl take. unfold outstanding. rewrite outstanding_from_cons.
      rewrite outstanding_from_shift. specialize (IH _ k H). lia.
Qed.

Lemma bounded_from_read_replies (n c : Z) :
  0 <= c <= n -> n <= 100 -> bounded_from n (read_replies c).
Proof.
  intros Hc Hn. unfold read_replies.
  assert (Hle : Z.of_nat (Z.to_nat c) <= n) by lia.
  clear Hc. revert n Hn Hle. induction (Z.to_nat c) as [|m IH]; intros n Hn Hle.
  - simpl. lia.
  - simpl. split; [lia|]. apply IH; lia.
Qed.

Lemma bounded_from_quiet (n : Z) (t : list Effect) :
  0 <= n <= 100 -> Forall (fun e => delta e = 0) t -> bounded_from n t.
Proof.
  intros Hn Ht. revert n Hn. induction Ht as [|e t He Ht IH]; intros n Hn.
  - simpl. lia.
  - simpl. split; [exact Hn|]. apply IH. lia.
Qed.

Lemma outstanding_quiet (t : list Effect) :
  Forall (fun e => delta e = 0) t -> outstanding t = 0.
Proof.
  induction 1 as [|e t He Ht IH]; [reflexivity|].
  unfold outstanding. rewrite outstanding_from_cons, outstanding_from_shift.
  lia.
Qed.

(** How an event extends the trace while the bound holds. *)
Lemma cache_inv_extend (S : System) (new : list Effect) (d : Dispatcher)
    (live : bool) :
  cache_inv S ->
  bounded_from (cache_pending S) new ->
  0 <= redis_pipeline_count d < 100 ->
  cache_pending S + outstanding new
  = (if live then redis_pipeline_count d else 0) ->
  0 <= redis_pipeline_count d < 100
  /\ outstanding (trace S ++ new)
     = (if live then redis_pipeline_count d else 0)
  /\ bounded_from 0 (trace S ++ new).
Proof.
  intros (_ & Hout & Hb) Hnew Hd Hsum. split; [exact Hd|]. split.
  - rewrite outstanding_app, Hout. exact Hsum.
  - apply bounded_from_app; [exact Hb|]. simpl. rewrite Hout. exact Hnew.
Qed.

(** One iteration of the dispatcher on the cache pipeline: the commands
    outstanding stay within 0 and 100 throughout, and the counter is their
    number, below 100, when the iteration ends. *)
Lemma dispatcher_iter_cache (p : Polled) (d : Dispatcher) (s : LatencyStats)
    (queue : list MessageBatch) :
  0 <= redis_pipeline_count d < 100 ->
  let r := dispatcher_iter p d s queue in
  bounded_from (redis_pipeline_count d) (d_effects r)
  /\ 0 <= redis_pipeline_count (d_local r) < 100
  /\ redis_pipeline_count d + outstanding (d_effects r)
     = redis_pipeline_count (d_local r).
Proof.
  intros Hd.
  destruct p as [|[|errstr]|arrival [u|]]; simpl.
  - destruct (Z.gtb_spec (redis_pipeline_count d) 0) as [Hpos | Hzero]; simpl.
    + split; [apply bounded_from_read_replies; lia|]. split; [lia|].
      rewrite outstanding_read_replies; lia.
    + split; [lia|]. split; [lia|]. unfold outstanding. simpl. lia.
  - split; [lia|]. split; [lia|]. unfold outstanding. simpl. lia.
  - split; [lia|]. split; [lia|]. unfold outstanding. simpl. lia.
  - rewrite wrap32_id by lia.
    destruct (Z.geb_spec (redis_pipeline_count d + 1) 100) as [Hfull | Hroom];
      simpl.
    + split; [split; [lia|]; apply bounded_from_read_replies; lia|].
      split; [lia|].
      change (AppendSET (upd_ticker u) (upd_price u)
                :: read_replies (redis_pipeline_count d + 1))
        with ([AppendSET (upd_ticker u) (upd_price u)]
                ++ read_replies (redis_pipeline_count d + 1)).
      rewrite outstanding_app, outstanding_read_replies by lia.
      unfold outstanding. simpl. lia.
    + split; [lia|]. split; [lia|]. unfold outstanding. simpl. lia.
  - split; [lia|]. split; [lia|]. unfold outstanding. simpl. lia.
Qed.

Lemma dispatcher_epilogue_cache (d : Dispatcher) :
  0 <= redis_pipeline_count d < 100 ->
  bounded_from (redis_pipeline_count d) (dispatcher_epilogue d)
  /\ redis_pipeline_count d + outstanding (dispatcher_epilogue d) = 0.
Proof.
  intros Hd. unfold dispatcher_epilogue.
  destruct (Z.gtb_spec (redis_pipeline_count d) 0) as [Hpos | Hzero].
  - split.
    + apply bounded_from_app; [apply bounded_from_read_replies; lia|].
      rewrite outstanding_read_replies by lia. simpl. lia.
    + rewrite outstanding_app, outstanding_read_replies by lia.
      unfold outstanding. simpl. lia.
  - simpl. split; [lia|]. unfold outstanding. simpl. lia.
Qed.

Lemma writer_iter_quiet (now : Z) (res : ExecStatus) (w : Writer)
    (queue : list MessageBatch) :
  Forall (fun e => delta e = 0) (w_effects (writer_iter now res w queue)).
Proof.
  unfold writer_iter. destruct (drain queue (local_batch w)).
  destruct (should_flush _ _); [destruct res|]; simpl;
    repeat constructor.
Qed.

Lemma writer_epilogue_quiet (w : Writer) :
  Forall (fun e => delta e = 0) (writer_epilogue w).
Proof. unfold writer_epilogue. case_match; simpl; repeat constructor. Qed.

Lemma cache_inv_quiet (S : System) (new : list Effect) :
  cache_inv S -> Forall (fun e => delta e = 0) new ->
  0 <= redis_pipeline_count (dispatcher S) < 100
  /\ outstanding (trace S ++ new) = cache_pending S
  /\ bounded_from 0 (trace S ++ new).
Proof.
  intros Hinv Hq. pose proof Hinv as (Hd & Hout & Hb).
  apply (cache_inv_extend S new (dispatcher S) (dispatcher_live S)); auto.
  - apply bounded_from_quiet; [|exact Hq].
    rewrite <- Hout.
    pose proof (bounded_from_take 0 (trace S) (length (trace S)) Hb) as Hk.
    rewrite firstn_all in Hk. lia.
  - rewrite outstanding_quiet by exact Hq. unfold cache_pending. lia.
Qed.

Lemma cache_inv_step (e : Event) (S : System) :
  cache_inv S -> cache_inv (step e S).
Proof.
  intros Hinv. pose proof Hinv as (Hd & Hout & Hb).
  destruct e as [p|now res| |]; simpl.
  - destruct (dispatcher_live S) eqn:Hlive; simpl; [|exact Hinv].
    destruct (run S); unfold cache_inv, cache_pending; simpl.
    + destruct (dispatcher_iter_cache p (dispatcher S) (stats S)
                  (batch_queue S) Hd) as (Hnew & Hd' & Hsum).
      apply (cache_inv_extend S _ _ true Hinv); unfold cache_pending;
        rewrite ?Hlive; auto.
    + destruct (dispatcher_epilogue_cache (dispatcher S) Hd) as [Hnew Hsum].
      apply (cache_inv_extend S _ _ false Hinv); unfold cache_pending;
        rewrite ?Hlive; auto.
  - destruct (writer_live S); simpl; [|exact Hinv].
    destruct (run S); unfold cache_inv; simpl.
    + apply (cache_inv_quiet S _ Hinv), writer_iter_quiet.
    + apply (cache_inv_quiet S _ Hinv), writer_epilogue_quiet.
  - destruct (reporter_live S); simpl; [|exact Hinv].
    destruct (run S); unfold cache_inv; simpl; [|exact Hinv].
    apply (cache_inv_quiet S _ Hinv).
    case_match; repeat constructor.
  - exact Hinv.
Qed.

Lemma cache_inv_init (start : Z) : cache_inv (system_init start).
Proof.
  unfold cache_inv, cache_pending, outstanding; simpl. lia.
Qed.

(** C7. The commands outstanding on the cache pipeline (appended, reply
    not yet read) never exceed 100, at any point of any run; between two
    iterations of the dispatcher the counter is their number and is below
    100.  An idle poll reads every outstanding reply and resets the
    counter to 0, and so does the publish that brings the counter to
    100. *)
Theorem cache_pipeline_bounded (start : Z) (evs : list Event) :
  let S := run_events evs (system_init start) in
  (forall k : nat, 0 <= outstanding (take k (trace S)) <= 100)
  /\ 0 <= redis_pipeline_count (dispatcher S) < 100
  /\ outstanding (trace S) = cache_pending S
  /\ (run S = true ->
      let S' := step (Poll NoMessage) S in
      redis_pipeline_count (dispatcher S') = 0
      /\ outstanding (trace S') = 0
      /\ trace S' = trace S ++ read_replies (redis_pipeline_count (dispatcher S)))
  /\ (run S = true -> redis_pipeline_count (dispatcher S) = 99 ->
      forall (arrival : Z) (u : MarketUpdate),
        let S' := step (Poll (Message arrival (Some u))) S in
        redis_pipeline_count (dispatcher S') = 0
        /\ outstanding (trace S') = 0
        /\ trace S' = trace S ++ AppendSET (upd_ticker u) (upd_price u)
                                 :: read_replies 100).
Proof.
  intros S.
  pose proof (run_events_invariant cache_inv cache_inv_step evs _
                (cache_inv_init start)) as Hinv.
  pose proof (run_events_invariant loops_live loops_live_step evs _
                (loops_live_init start)) as Hlive.
  fold S in Hinv, Hlive. pose proof Hinv as (Hd & Hout & Hb).
  split; [|split; [exact Hd|split; [exact Hout|split]]].
  - intros k. pose proof (bounded_from_take 0 (trace S) k Hb). lia.
  - intros Hrun S'. destruct (Hlive Hrun) as [Hdl _].
    pose proof (cache_inv_step (Poll NoMessage) S Hinv) as (_ & Hout' & _).
    fold S' in Hout'. unfold cache_pending in Hout'.
    subst S'. simpl in *. rewrite Hdl, Hrun in *. simpl in *.
    destruct (Z.gtb_spec (redis_pipeline_count (dispatcher S)) 0)
      as [Hpos | Hzero]; simpl in *.
    + auto.
    + replace (redis_pipeline_count (dispatcher S)) with 0 in * by lia.
      rewrite app_nil_r in *. repeat split; auto.
      change (read_replies 0) with (@nil Effect). now rewrite app_nil_r.
  - intros Hrun Hfull arrival u S'. destruct (Hlive Hrun) as [Hdl _].
    pose proof (cache_inv_step (Poll (Message arrival (Some u))) S Hinv)
      as (_ & Hout' & _).
    fold S' in Hout'. unfold cache_pending in Hout'.
    subst S'. simpl in *. rewrite Hdl, Hrun, Hfull in *. simpl in *. auto.
Qed.

(** Ninety-nine publishes leave 99 commands outstanding; the hundredth
    reads the 100 replies, and so would an idle poll read the 99. *)
Lemma cache_pipeline_bounded_witness :
  let u := mkUpdate "AAPL" (150 # 1) 10 1000 in
  let evs := replicate 99 (Poll (Message 1500 (Some u))) in
  let S := run_events evs (system_init 0) in
  (run S = true /\ redis_pipeline_count (dispatcher S) = 99)
  /\ outstanding (trace S) = 99
  /\ redis_pipeline_count (dispatcher (step (Poll (Message 1600 (Some u))) S))
     = 0
  /\ outstanding (trace (step (Poll (Message 1600 (Some u))) S)) = 0
  /\ outstanding (trace (step (Poll NoMessage) S)) = 0.
Proof.
  intros u evs S.
  destruct (cache_pipeline_bounded 0 evs) as (_ & _ & Hout & Hidle & Hfull).
  assert (Hrun : run S = true) by (vm_compute; reflexivity).
  assert (Hcount : redis_pipeline_count (dispatcher S) = 99)
    by (vm_compute; reflexivity).
  destruct (Hidle Hrun) as (_ & Hi & _).
  destruct (Hfull Hrun Hcount 1600 u) as (Hc & Ho & _).
  split; [split; assumption|].
  split; [vm_compute; reflexivity|]. split; [exact Hc|].
  split; [exact Ho | exact Hi].
Defined.

(** * Further properties of the code *)

(** ** The count and the sum of the recorder *)

Lemma sum_list_insert (f : Z * pc -> Z) (l : list (Z * pc)) (i : nat)
    (a b : Z * pc) :
  l !! i = Some a ->
  sum_list (f <$> <[i := b]> l) = sum_list (f <$> l) + f b - f a.
Proof.
  assert (Hcons : forall c k, sum_list (f <$> c :: k) = f c + sum_list (f <$> k))
    by reflexivity.
  revert i. induction l as [|c l IH]; intros [|i] Hi; try discriminate.
  - injection Hi as ->. change (<[0%nat := b]> (a :: l)) with (b :: l).
    rewrite !Hcons. lia.
  - change (<[S i := b]> (c :: l)) with (c :: <[i := b]> l).
    rewrite !Hcons, (IH i Hi). lia.
Qed.

(** One access adds to each cell what the call newly accounts for. *)
Lemma step_call_accounts (b : bool) (x : Z) (p p' : pc)
    (s s' : LatencyStats) (n t : Z) :
  step_call b x p s = (p', s') ->
  total_processed s = wrap64 n -> total_latency_ns s = wrap64 t ->
  total_processed s' = wrap64 (n + counted (x, p') - counted (x, p))
  /\ total_latency_ns s' = wrap64 (t + added (x, p') - added (x, p)).
Proof.
  unfold step_call, compare_exchange_weak, counted, added, ll_add.
  intros Hs Hn Ht.
  destruct p; simpl in *; repeat case_match; simplify_eq/=;
    rewrite ?Hn, ?Ht, ?wrap64_add_l; split; f_equal; lia.
Qed.

Lemma exec_accounts (sched : list (nat * bool)) (r r' : Recorder) :
  exec sched r = Some r' ->
  total_processed (shared r) = wrap64 (sum_list (counted <$> calls r)) ->
  total_latency_ns (shared r) = wrap64 (sum_list (added <$> calls r)) ->
  total_processed (shared r') = wrap64 (sum_list (counted <$> calls r'))
  /\ total_latency_ns (shared r') = wrap64 (sum_list (added <$> calls r')).
Proof.
  revert r. induction sched as [|[i b] sched IH]; simpl; intros r.
  - intros [= <-]. auto.
  - destruct (sched_step r (i, b)) as [r1|] eqn:Hstep; [|discriminate].
    intros Hexec Hn Ht. apply (IH r1 Hexec).
    + unfold sched_step in Hstep. simpl in Hstep.
      destruct (calls r !! i) as [[x p]|] eqn:Hi; [|discriminate].
      destruct (step_call b x p (shared r)) as [p' s'] eqn:Hsc.
      assert (r1 = mkRecorder s' (<[i := (x, p')]> (calls r)))
        as -> by (destruct p; congruence).
      simpl. rewrite (sum_list_insert counted _ _ _ _ Hi).
      exact (proj1 (step_call_accounts _ _ _ _ _ _ _ _ Hsc Hn Ht)).
    + unfold sched_step in Hstep. simpl in Hstep.
      destruct (calls r !! i) as [[x p]|] eqn:Hi; [|discriminate].
      destruct (step_call b x p (shared r)) as [p' s'] eqn:Hsc.
      assert (r1 = mkRecorder s' (<[i := (x, p')]> (calls r)))
        as -> by (destruct p; congruence).
      simpl. rewrite (sum_list_insert added _ _ _ _ Hi).
      exact (proj2 (step_call_accounts _ _ _ _ _ _ _ _ Hsc Hn Ht)).
Qed.

Lemma returned_accounts (l : list (Z * pc)) :
  forallb returned l = true ->
  sum_list (counted <$> l) = Z.of_nat (length l)
  /\ sum_list (added <$> l) = sum_list (l.*1).
Proof.
  induction l as [|[x p] l IH]; [split; reflexivity|].
  simpl forallb. intros [Hp Hl]%andb_true_iff.
  destruct (IH Hl) as [Hc Ha].
  unfold returned in Hp. simpl in Hp. destruct p; try discriminate.
  change (sum_list (counted <$> (x, Returned) :: l))
    with (1 + sum_list (counted <$> l)).
  change (sum_list (added <$> (x, Returned) :: l))
    with (x + sum_list (added <$> l)).
  change (sum_list (((x, Returned) :: l).*1)) with (x + sum_list (l.*1)).
  rewrite Hc, Ha. split; [simpl length; lia | reflexivity].
Qed.

Lemma init_accounts (latencies : list Z) :
  sum_list (counted <$> calls (recorder_init latencies)) = 0
  /\ sum_list (added <$> calls (recorder_init latencies)) = 0.
Proof.
  unfold recorder_init. cbn [calls].
  induction latencies as [|x xs [IHc IHa]]; [split; reflexivity|].
  change (sum_list (counted <$> ((fun x => (x, AtCount)) <$> x :: xs)))
    with (0 + sum_list (counted <$> ((fun x => (x, AtCount)) <$> xs))).
  change (sum_list (added <$> ((fun x => (x, AtCount)) <$> x :: xs)))
    with (0 + sum_list (added <$> ((fun x => (x, AtCount)) <$> xs))).
  rewrite IHc, IHa. split; reflexivity.
Qed.

(** X1. The atomic increment and addition lose no update: in every
    interleaving of the accesses of concurrent calls, [total_processed] is
    at every moment the number of calls that have performed their
    increment and [total_latency_ns] the sum of the arguments added so far
    (in 64-bit arithmetic); once every call has returned they are the
    number of calls and the sum of their arguments. *)
Theorem recorder_counts_every_call (latencies : list Z)
    (sched : list (nat * bool)) (r : Recorder) :
  exec sched (recorder_init latencies) = Some r ->
  (total_processed (shared r) = wrap64 (sum_list (counted <$> calls r))
   /\ total_latency_ns (shared r) = wrap64 (sum_list (added <$> calls r)))
  /\ (all_returned r = true ->
      total_processed (shared r) = wrap64 (Z.of_nat (length latencies))
      /\ total_latency_ns (shared r) = wrap64 (sum_list latencies)).
Proof.
  intros Hexec.
  destruct (init_accounts latencies) as [Hc0 Ha0].
  assert (Hacc : total_processed (shared r)
                 = wrap64 (sum_list (counted <$> calls r))
                 /\ total_latency_ns (shared r)
                    = wrap64 (sum_list (added <$> calls r))).
  { apply (exec_accounts sched _ _ Hexec); [rewrite Hc0 | rewrite Ha0];
      reflexivity. }
  split; [exact Hacc|]. intros Hret.
  destruct Hacc as [-> ->].
  destruct (returned_accounts (calls r) Hret) as [-> ->].
  destruct (exec_inv latencies _ _ _ Hexec (recorder_init_inv latencies))
    as (Hxs & _).
  rewrite Hxs, <- (length_fmap fst (calls r)).
  change (fst <$> calls r) with ((calls r).*1). rewrite Hxs. auto.
Qed.

(** Three calls interleaved with a spurious failure: 3 calls, 17 ns. *)
Lemma recorder_counts_every_call_witness :
  let latencies := [5; 3; 9] in
  let sched := [(0, false); (1, false); (2, false); (0, false); (1, false);
                (2, false); (0, false); (1, false); (2, false); (1, true);
                (0, false); (1, false); (2, false); (0, false); (0, false);
                (2, false); (2, false); (1, false); (1, false);
                (2, false); (1, false)]%nat in
  exists r, exec sched (recorder_init latencies) = Some r
            /\ all_returned r = true
            /\ total_processed (shared r) = 3
            /\ total_latency_ns (shared r) = 17.
Proof.
  intros latencies sched.
  destruct (exec sched (recorder_init latencies)) as [r|] eqn:Hr;
    [|vm_compute in Hr; discriminate].
  assert (Hret : all_returned r = true).
  { vm_compute in Hr. injection Hr as <-. reflexivity. }
  destruct (recorder_counts_every_call latencies sched r Hr) as [_ Hdone].
  destruct (Hdone Hret) as [Hn Ht].
  exists r. split; [reflexivity|]. split; [exact Hret|].
  split; [rewrite Hn | rewrite Ht]; reflexivity.
Defined.

(** ** Snapshots of the extrema *)

Lemma exec_monotone (sched : list (nat * bool)) (r r' : Recorder) :
  exec sched r = Some r' ->
  min_latency_ns (shared r') <= min_latency_ns (shared r)
  /\ max_latency_ns (shared r) <= max_latency_ns (shared r').
Proof.
  revert r. induction sched as [|[i b] sched IH]; simpl; intros r.
  - intros [= <-]. lia.
  - destruct (sched_step r (i, b)) as [r1|] eqn:Hstep; [|discriminate].
    intros Hexec. destruct (IH r1 Hexec) as [Hlo Hhi].
    unfold sched_step in Hstep. simpl in Hstep.
    destruct (calls r !! i) as [[x p]|]; [|discriminate].
    destruct (step_call b x p (shared r)) as [p' s'] eqn:Hsc.
    assert (r1 = mkRecorder s' (<[i := (x, p')]> (calls r)))
      as -> by (destruct p; congruence).
    apply step_call_spec in Hsc as (Hlo1 & Hhi1 & _). simpl in *. lia.
Qed.

(** X2. A snapshot of the extrema taken at any moment of any interleaving
    is sound for the calls completed so far: the stored minimum is at most,
    and the stored maximum at least, the argument of every call that has
    returned; each cell holds its initial value or one of the arguments;
    and from then on the minimum only decreases and the maximum only
    increases. *)
Theorem recorder_snapshot_is_sound (latencies : list Z)
    (sched : list (nat * bool)) (r : Recorder) :
  exec sched (recorder_init latencies) = Some r ->
  (forall (i : nat) (x : Z),
     calls r !! i = Some (x, Returned) ->
     min_latency_ns (shared r) <= x <= max_latency_ns (shared r))
  /\ In (min_latency_ns (shared r)) (LLONG_MAX :: latencies)
  /\ In (max_latency_ns (shared r)) (0 :: latencies)
  /\ (forall (sched' : list (nat * bool)) (r' : Recorder),
        exec sched' r = Some r' ->
        min_latency_ns (shared r') <= min_latency_ns (shared r)
        /\ max_latency_ns (shared r) <= max_latency_ns (shared r')).
Proof.
  intros Hexec.
  destruct (exec_inv latencies _ _ _ Hexec (recorder_init_inv latencies))
    as (_ & Hmin & Hmax & Hok).
  split; [|split; [exact Hmin|split; [exact Hmax|]]].
  - intros i x Hi. rewrite Forall_lookup in Hok.
    exact (Hok i _ Hi).
  - intros sched' r'. apply exec_monotone.
Qed.

(** The call recording 5 has returned while the calls recording 3 and 9
    are still in their loops: the snapshot bounds 5, and the later
    minimum is lower. *)
Lemma recorder_snapshot_is_sound_witness :
  let latencies := [5; 3; 9] in
  let sched := [(0, false); (0, false); (0, false); (0, false); (0, false);
                (0, false); (1, false); (2, false)]%nat in
  let rest := [(1, false); (1, false); (1, false)]%nat in
  exists r r', exec sched (recorder_init latencies) = Some r
               /\ exec rest r = Some r'
               /\ calls r !! 0%nat = Some (5, Returned)
               /\ min_latency_ns (shared r) <= 5 <= max_latency_ns (shared r)
               /\ min_latency_ns (shared r') <= min_latency_ns (shared r)
               /\ min_latency_ns (shared r') = 3.
Proof.
  intros latencies sched rest.
  destruct (exec sched (recorder_init latencies)) as [r|] eqn:Hr;
    [|vm_compute in Hr; discriminate].
  destruct (exec rest r) as [r'|] eqn:Hr';
    [|vm_compute in Hr; injection Hr as <-; vm_compute in Hr'; discriminate].
  destruct (recorder_snapshot_is_sound latencies sched r Hr)
    as (Hsnap & _ & _ & Hmono).
  assert (H0 : calls r !! 0%nat = Some (5, Returned)).
  { vm_compute in Hr. injection Hr as <-. reflexivity. }
  exists r, r'. split; [reflexivity|]. split; [exact Hr'|].
  split; [exact H0|]. split; [exact (Hsnap 0%nat 5 H0)|].
  split; [exact (proj1 (Hmono rest r' Hr'))|].
  vm_compute in Hr. injection Hr as <-. vm_compute in Hr'.
  injection Hr' as <-. reflexivity.
Defined.

(** ** The commands sent to the cache *)

Lemma sets_app (t1 t2 : list Effect) : sets (t1 ++ t2) = sets t1 ++ sets t2.
Proof.
  induction t1 as [|[] t1 IH]; simpl; rewrite ?IH; reflexivity.
Qed.

Lemma sets_read_replies (n : Z) : sets (read_replies n) = [].
Proof. unfold read_replies. induction (Z.to_nat n); simpl; auto. Qed.

Lemma sets_quiet (t : list Effect) :
  Forall (fun e => delta e = 0) t -> sets t = [].
Proof.
  induction 1 as [|[] t He Ht IH]; simpl in *; auto; discriminate.
Qed.

Lemma pushed_accepted (e : Event) (evs : list Event) (S : System) :
  loops_live S ->
  pushed e S ++ (if run (step e S) then accepted evs else [])
  = if run S then accepted (e :: evs) else [].
Proof.
  intros Hlive. rewrite run_step. unfold pushed. destruct (run S) eqn:Hr.
  - destruct (Hlive Hr) as [-> _].
    destruct e as [[|[]|? [?|]]| | |]; reflexivity.
  - rewrite andb_false_r.
    destruct e as [[|[]|? [?|]]| | |]; reflexivity.
Qed.

Lemma sets_step (e : Event) (S : System) :
  sets (trace (step e S))
  = sets (trace S) ++ ((fun m => (ticker m, price m)) <$> pushed e S).
Proof.
  destruct e as [p|now res| |]; simpl; rewrite ?app_nil_r; try reflexivity.
  - destruct (dispatcher_live S); simpl.
    + destruct (run S); simpl; rewrite sets_app.
      * f_equal.
        destruct p as [|[]|arrival [u|]]; simpl; repeat case_match; simpl;
          rewrite ?sets_read_replies; reflexivity.
      * unfold dispatcher_epilogue. rewrite sets_app.
        case_match; simpl; rewrite ?sets_read_replies;
          destruct p as [|[]|arrival [u|]]; simpl; rewrite ?app_nil_r;
          reflexivity.
    + destruct p as [|[]|arrival [u|]]; simpl; rewrite ?app_nil_r;
        reflexivity.
  - destruct (writer_live S); simpl; [|reflexivity].
    destruct (run S); simpl; rewrite sets_app.
    + rewrite (sets_quiet _ (writer_iter_quiet _ _ _ _)), app_nil_r.
      reflexivity.
    + rewrite (sets_quiet _ (writer_epilogue_quiet _)), app_nil_r.
      reflexivity.
  - destruct (reporter_live S); simpl; [|reflexivity].
    destruct (run S); simpl; [|reflexivity].
    rewrite sets_app. case_match; simpl; rewrite app_nil_r; reflexivity.
Qed.

Lemma sets_run (evs : list Event) (S : System) :
  loops_live S ->
  sets (trace (run_events evs S))
  = sets (trace S)
      ++ ((fun m => (ticker m, price m))
            <$> (if run S then accepted evs else [])).
Proof.
  revert S. induction evs as [|e evs IH]; intros S Hlive.
  - simpl. destruct (run S); simpl; rewrite app_nil_r; reflexivity.
  - change (run_events (e :: evs) S) with (run_events evs (step e S)).
    rewrite (IH _ (loops_live_step e S Hlive)), sets_step.
    rewrite <- (pushed_accepted e evs S Hlive), fmap_app, app_assoc.
    reflexivity.
Qed.

Lemma accepted_length (evs : list Event) :
  length (accepted evs) = valid_payloads evs.
Proof.
  induction evs as [|[[|[]|? [?|]]| | |] evs IH]; simpl; congruence.
Qed.

(** X3. The dispatcher appends to the cache pipeline one SET per decoded
    payload, keyed by its ticker and carrying its price, in the order of
    arrival, and nothing else.  A decoded payload gives exactly one SET and
    one row, sent or on its way to the sink. *)
Theorem cache_sets_follow_arrival (start : Z) (evs : list Event) :
  let S := run_events evs (system_init start) in
  sets (trace S) = (fun m => (ticker m, price m)) <$> accepted evs
  /\ length (sets (trace S)) = valid_payloads evs
  /\ length (pipeline S) = valid_payloads evs.
Proof.
  intros S.
  assert (Hsets : sets (trace S)
                  = (fun m => (ticker m, price m)) <$> accepted evs)
    by exact (sets_run evs (system_init start) (loops_live_init start)).
  split; [exact Hsets|]. split.
  - rewrite Hsets, length_fmap. apply accepted_length.
  - unfold S.
    rewrite (pipeline_run evs (system_init start) (loops_live_init start)
               eq_refl).
    simpl. rewrite length_fmap. apply accepted_length.
Qed.

(** ** What a drain takes *)

Lemma drain_exact (queue local : list MessageBatch) :
  let k := Z.to_nat (BATCH_SIZE - size local) in
  drain queue local = (drop k queue, local ++ take k queue).
Proof.
  revert local. induction queue as [|front rest IH]; intros local; simpl.
  - rewrite drop_nil, take_nil, app_nil_r. reflexivity.
  - destruct (Z.ltb_spec (size local) BATCH_SIZE) as [Hroom | Hfull].
    + rewrite IH.
      assert (Hk : Z.to_nat (BATCH_SIZE - size local)
                   = Datatypes.S (Z.to_nat (BATCH_SIZE - size (local ++ [front])))).
      { unfold size, BATCH_SIZE in *. rewrite length_app.
        change (length [front]) with 1%nat. lia. }
      rewrite Hk. simpl. rewrite <- app_assoc. reflexivity.
    + replace (Z.to_nat (BATCH_SIZE - size local)) with 0%nat by lia.
      simpl. rewrite app_nil_r. reflexivity.
Qed.

Lemma drain_take_drop (queue local : list MessageBatch) :
  size local <= BATCH_SIZE ->
  drain queue local
  = (drop (Z.to_nat BATCH_SIZE) (local ++ queue),
     take (Z.to_nat BATCH_SIZE) (local ++ queue)).
Proof.
  intros Hlocal. rewrite drain_exact. cbv zeta.
  unfold size in *. generalize dependent BATCH_SIZE. intros cap Hlocal.
  rewrite take_app, drop_app.
  rewrite (take_ge local), (drop_ge local) by lia. simpl.
  replace (Z.to_nat (cap - Z.of_nat (length local)))
    with (Z.to_nat cap - length local)%nat by lia.
  reflexivity.
Qed.

(** X4. The drain under the lock takes the oldest items first and as many
    as fit: with a local batch within [BATCH_SIZE], the batch after the
    drain is the first 5000 of the batch followed by the queue, and the
    queue left is the rest, in the same order. *)
Theorem drain_takes_the_oldest (queue local : list MessageBatch) :
  size local <= BATCH_SIZE ->
  (drain queue local).2 = take (Z.to_nat BATCH_SIZE) (local ++ queue)
  /\ (drain queue local).1 = drop (Z.to_nat BATCH_SIZE) (local ++ queue)
  /\ size (drain queue local).2 = Z.min (size local + size queue) BATCH_SIZE.
Proof.
  intros Hlocal. rewrite (drain_take_drop queue local Hlocal). simpl.
  split; [reflexivity|]. split; [reflexivity|].
  unfold size in *. rewrite length_take, length_app.
  generalize dependent BATCH_SIZE. intros cap Hlocal. lia.
Qed.

(** A batch holding 4998 items and a queue of three: two are taken, the
    third stays. *)
Lemma drain_takes_the_oldest_witness :
  let item := fun n => mkBatch "AAPL" (150 # 1) n 0 (0 # 1) in
  let local := replicate (Z.to_nat 4998) (item 0) in
  let queue := [item 1; item 2; item 3] in
  size local <= BATCH_SIZE
  /\ (drain queue local).1 = [item 3]
  /\ (drain queue local).2 = local ++ [item 1; item 2].
Proof.
  intros item local queue.
  assert (Hlocal : size local <= BATCH_SIZE) by (vm_compute; discriminate).
  destruct (drain_takes_the_oldest queue local Hlocal) as (Hb & Hq & _).
  split; [exact Hlocal|]. rewrite Hb, Hq. split; vm_compute; reflexivity.
Defined.

(** ** What a tick of the writer sends *)

Lemma elapsed_ms_threshold (now last : Z) :
  100 <= elapsed_ms now last <-> 100000000 <= now - last.
Proof.
  unfold elapsed_ms. generalize (now - last). intros a.
  pose proof (Z.quot_rem' a 1000000) as Hqr.
  destruct (Z_le_gt_dec 0 a) as [Hpos | Hneg].
  - pose proof (Z.rem_bound_pos a 1000000 Hpos ltac:(lia)). lia.
  - pose proof (Z.rem_bound_pos_neg a 1000000 ltac:(lia) ltac:(lia)). lia.
Qed.

(** X6. The time trigger in clock ticks: an iteration of the writer
    sends a statement if and only if the drained batch is not empty and
    either holds 5000 items or the steady clock has advanced by at least
    100 000 000 ns since the last flush; the milliseconds are truncated, so
    99 999 999 ns do not trigger, and a reading before the last flush
    never does. *)
Theorem flush_trigger_in_nanoseconds (now : Z) (res : ExecStatus)
    (w : Writer) (queue : list MessageBatch) :
  let batch := (drain queue (local_batch w)).2 in
  flushed (writer_iter now res w queue) = true
  <-> batch <> []
      /\ (5000 <= size batch \/ 100000000 <= now - last_flush w).
Proof.
  intros batch. rewrite writer_iter_flushed. fold batch.
  rewrite should_flush_iff. unfold BATCH_SIZE, FLUSH_INTERVAL_MS.
  rewrite elapsed_ms_threshold. reflexivity.
Qed.

(** A tick of the running writer on a batch within the bound: the queue
    keeps what does not fit, and the first 5000 in flight are sent or
    kept, as the trigger decides. *)
Lemma writer_tick_spec (S : System) (now : Z) (res : ExecStatus) :
  run S = true -> writer_live S = true ->
  size (local_batch (writer S)) <= BATCH_SIZE ->
  let S' := step (WriterTick now res) S in
  let batch := take (Z.to_nat BATCH_SIZE) (in_flight S) in
  batch_queue S' = drop (Z.to_nat BATCH_SIZE) (in_flight S)
  /\ ((batch <> []
       /\ (BATCH_SIZE <= size batch
           \/ 100000000 <= now - last_flush (writer S))
       /\ local_batch (writer S') = []
       /\ statements (trace S') = statements (trace S) ++ [row_of <$> batch])
      \/ ((batch = []
           \/ (size batch < BATCH_SIZE
               /\ now - last_flush (writer S) < 100000000))
          /\ local_batch (writer S') = batch
          /\ statements (trace S') = statements (trace S))).
Proof.
  intros Hrun Hw Hlocal S' batch.
  assert (HS' : S' = step (WriterTick now res) S) by reflexivity.
  rewrite (writer_tick_running S now res Hrun Hw) in HS'. cbv zeta in HS'.
  clearbody S'.
  pose proof (drain_take_drop (batch_queue S) _ Hlocal) as Hd.
  fold (in_flight S) in Hd. fold batch in Hd.
  pose proof (writer_iter_flushed now res (writer S) (batch_queue S)) as Hfl.
  pose proof (writer_iter_drained now res (writer S) (batch_queue S)) as Hq.
  rewrite Hd in Hfl, Hq. simpl in Hfl, Hq.
  pose proof (should_flush_iff batch (elapsed_ms now (last_flush (writer S))))
    as Hiff.
  rewrite elapsed_ms_threshold in Hiff. unfold FLUSH_INTERVAL_MS in Hiff.
  destruct (writer_iter_cases now res (writer S) (batch_queue S))
    as [(Hf & Hloc & _ & Hst & _) | (Hf & Hloc & _ & Heff)];
    rewrite Hd in *; simpl in *; subst S'; simpl;
    rewrite statements_app, Hq; (split; [reflexivity|]).
  - left. rewrite Hf in Hfl. symmetry in Hfl. apply Hiff in Hfl as [Hne Htr].
    rewrite Hloc, Hst. auto.
  - right. rewrite Hloc, Heff. simpl. rewrite app_nil_r.
    split; [|auto]. rewrite Hf in Hfl.
    destruct batch as [|m batch']; [left; reflexivity|right].
    assert (Hno : ~ (m :: batch' <> []
                     /\ (BATCH_SIZE <= size (m :: batch')
                         \/ 100000000 <= now - last_flush (writer S)))).
    { rewrite <- Hiff. congruence. }
    split; [|]; apply Z.lt_nge; intros Hge; apply Hno;
      (split; [discriminate | auto]).
Qed.

Lemma reachable_invariants (start : Z) (evs : list Event) :
  let S := run_events evs (system_init start) in
  loops_live S /\ batch_bounded S /\ cache_inv S.
Proof.
  intros S. split; [|split].
  - apply (run_events_invariant loops_live loops_live_step), loops_live_init.
  - apply (run_events_invariant batch_bounded batch_bounded_step).
    split; simpl; [unfold size, BATCH_SIZE; simpl; lia | constructor].
  - apply (run_events_invariant cache_inv cache_inv_step), cache_inv_init.
Qed.

(** X5. What a tick of the running writer sends, at any point of any
    run.  With 5000 items or more in flight (local batch, then queue) it
    sends the 5000 oldest in one statement whatever the clock says and
    leaves the rest in the queue.  With fewer, and 100 ms elapsed, it sends
    them all and leaves nothing in flight.  With fewer, and less elapsed,
    it sends nothing and holds them all in its local batch, the queue
    empty. *)
Theorem writer_tick_sends_the_oldest (start : Z) (evs : list Event)
    (now : Z) (res : ExecStatus) :
  let S := run_events evs (system_init start) in
  let S' := step (WriterTick now res) S in
  run S = true ->
  (BATCH_SIZE <= size (in_flight S) ->
   statements (trace S')
   = statements (trace S)
       ++ [row_of <$> take (Z.to_nat BATCH_SIZE) (in_flight S)]
   /\ in_flight S' = drop (Z.to_nat BATCH_SIZE) (in_flight S))
  /\ (in_flight S <> [] -> size (in_flight S) < BATCH_SIZE ->
      100000000 <= now - last_flush (writer S) ->
      statements (trace S')
      = statements (trace S) ++ [row_of <$> in_flight S]
      /\ in_flight S' = [])
  /\ (size (in_flight S) < BATCH_SIZE ->
      now - last_flush (writer S) < 100000000 ->
      statements (trace S') = statements (trace S)
      /\ local_batch (writer S') = in_flight S
      /\ batch_queue S' = []).
Proof.
  intros S S' Hrun.
  destruct (reachable_invariants start evs) as (Hlive & [Hlocal _] & _).
  fold S in Hlive, Hlocal. destruct (Hlive Hrun) as [_ Hw].
  destruct (writer_tick_spec S now res Hrun Hw Hlocal) as [Hq Hcases].
  fold S' in Hq, Hcases.
  assert (Hsize : size (take (Z.to_nat BATCH_SIZE) (in_flight S))
                  = Z.min (size (in_flight S)) BATCH_SIZE).
  { unfold size. rewrite length_take. unfold BATCH_SIZE. lia. }
  assert (Hall : size (in_flight S) < BATCH_SIZE ->
                 take (Z.to_nat BATCH_SIZE) (in_flight S) = in_flight S
                 /\ drop (Z.to_nat BATCH_SIZE) (in_flight S) = []).
  { intros Hlt. unfold size in Hlt.
    rewrite take_ge, drop_ge by lia. auto. }
  assert (Hfl : in_flight S' = local_batch (writer S') ++ batch_queue S')
    by reflexivity.
  rewrite !Hfl. split; [|split].
  - intros Hfull.
    destruct Hcases as [(_ & _ & Hloc & Hst) | ([Hnil | [Hlt _]] & _)].
    + rewrite Hloc, Hq, Hst. auto.
    + rewrite Hnil in Hsize. unfold size in Hsize at 1. simpl in Hsize.
      unfold BATCH_SIZE in *. lia.
    + unfold BATCH_SIZE in *. lia.
  - intros Hne Hlt Hns. destruct (Hall Hlt) as [Htake Hdrop].
    rewrite Htake in Hcases. rewrite Hdrop in Hq.
    destruct Hcases as [(_ & _ & Hloc & Hst) | ([Hnil | [_ Hnot]] & _)];
      [|congruence|lia].
    rewrite Hloc, Hq, Hst. auto.
  - intros Hlt Hns. destruct (Hall Hlt) as [Htake Hdrop].
    rewrite Htake in Hcases. rewrite Hdrop in Hq.
    destruct Hcases as [(_ & [Hfull | Hlate] & _) | (_ & Hloc & Hst)].
    + rewrite Htake in Hsize. unfold BATCH_SIZE in *. lia.
    + lia.
    + auto.
Qed.

(** Two items queued: a tick 50 ms after the start keeps them, a tick at
    100 ms sends them both. *)
Lemma writer_tick_sends_the_oldest_witness :
  let a := mkUpdate "AAPL" (150 # 1) 10 1000 in
  let b := mkUpdate "GOOG" (99 # 1) 5 2000 in
  let evs := [Poll (Message 1500 (Some a)); Poll (Message 2500 (Some b))] in
  let S := run_events evs (system_init 0) in
  (run S = true /\ in_flight S <> [] /\ size (in_flight S) < BATCH_SIZE
   /\ 100000000 <= 100000000 - last_flush (writer S)
   /\ 50000000 - last_flush (writer S) < 100000000)
  /\ statements (trace (step (WriterTick 50000000 PGRES_COMMAND_OK) S)) = []
  /\ statements (trace (step (WriterTick 100000000 PGRES_COMMAND_OK) S))
     = [[row_of (item_of 1500 a); row_of (item_of 2500 b)]]
  /\ in_flight (step (WriterTick 100000000 PGRES_COMMAND_OK) S) = [].
Proof.
  intros a b evs S.
  assert (Hrun : run S = true) by reflexivity.
  assert (Hne : in_flight S <> []) by discriminate.
  assert (Hlt : size (in_flight S) < BATCH_SIZE) by (vm_compute; reflexivity).
  assert (Hlate : 100000000 <= 100000000 - last_flush (writer S))
    by (vm_compute; discriminate).
  assert (Hearly : 50000000 - last_flush (writer S) < 100000000)
    by (vm_compute; reflexivity).
  destruct (writer_tick_sends_the_oldest 0 evs 50000000 PGRES_COMMAND_OK Hrun)
    as (_ & _ & Hkeep).
  destruct (writer_tick_sends_the_oldest 0 evs 100000000 PGRES_COMMAND_OK Hrun)
    as (_ & Hsend & _).
  destruct (Hkeep Hlt Hearly) as (Hst & _).
  destruct (Hsend Hne Hlt Hlate) as (Hst' & Hfl').
  split; [auto 10|]. split; [exact Hst|]. split; [exact Hst' | exact Hfl'].
Defined.

(** ** The rows counted as written *)

Lemma acknowledged_app (t new : list Effect) :
  starts_clean new ->
  acknowledged (t ++ new) = acknowledged t + acknowledged new.
Proof.
  intros Hnew. induction t as [|e t IH]; [simpl; lia|].
  destruct e as [key value| |rows|o]; simpl; try exact IH.
  destruct t as [|e' t'].
  - simpl in *. destruct new as [|[| | |[]] new']; simpl in *; lia.
  - change ((e' :: t') ++ new) with (e' :: (t' ++ new)) in *.
    destruct e' as [| | |[]]; lia.
Qed.

Lemma acknowledged_plain (t : list Effect) :
  Forall plain t -> acknowledged t = 0 /\ starts_clean t.
Proof.
  induction 1 as [|e t He Ht [IH _]]; [split; [reflexivity | exact I]|].
  destruct e as [| | |[]]; simpl in *; try contradiction; auto.
Qed.

Lemma read_replies_plain (n : Z) : Forall plain (read_replies n).
Proof.
  unfold read_replies. induction (Z.to_nat n); simpl; constructor;
    simpl; auto.
Qed.

Lemma dispatcher_iter_plain (p : Polled) (d : Dispatcher) (s : LatencyStats)
    (queue : list MessageBatch) :
  Forall plain (d_effects (dispatcher_iter p d s queue)).
Proof.
  destruct p as [|[]|arrival [u|]]; simpl; repeat case_match; simpl;
    repeat constructor; simpl; auto using read_replies_plain.
Qed.

Lemma dispatcher_epilogue_plain (d : Dispatcher) :
  Forall plain (dispatcher_epilogue d).
Proof.
  unfold dispatcher_epilogue. apply Forall_app. split.
  - case_match; [apply read_replies_plain | constructor].
  - repeat constructor.
Qed.

Lemma writer_epilogue_plain (w : Writer) : Forall plain (writer_epilogue w).
Proof.
  unfold writer_epilogue. case_match; simpl; repeat constructor.
Qed.

Lemma total_written_step (e : Event) (S : System) :
  total_written (writer S) = wrap64 (acknowledged (trace S)) ->
  total_written (writer (step e S))
  = wrap64 (acknowledged (trace (step e S))).
Proof.
  intros Hinv.
  assert (Hplain : forall new, Forall plain new ->
            wrap64 (acknowledged (trace S))
            = wrap64 (acknowledged (trace S ++ new))).
  { intros new Hnew. destruct (acknowledged_plain new Hnew) as [H0 Hc].
    rewrite (acknowledged_app _ _ Hc), H0. f_equal. lia. }
  destruct e as [p|now res| |]; simpl; [| | |exact Hinv].
  - destruct (dispatcher_live S); simpl; [|exact Hinv].
    destruct (run S); simpl; rewrite Hinv; apply Hplain;
      auto using dispatcher_iter_plain, dispatcher_epilogue_plain.
  - destruct (writer_live S); simpl; [|exact Hinv].
    destruct (run S); simpl;
      [|rewrite Hinv; apply Hplain, writer_epilogue_plain].
    unfold writer_iter.
    destruct (drain (batch_queue S) (local_batch (writer S)))
      as [queue' batch].
    destruct (should_flush batch _); [destruct res|]; simpl.
    + rewrite acknowledged_app by exact I. simpl.
      unfold ll_add, build_query, size. rewrite Hinv, wrap64_add_l.
      rewrite length_fmap. f_equal. lia.
    + rewrite acknowledged_app by exact I. simpl.
      rewrite Hinv. f_equal. lia.
    + rewrite app_nil_r. exact Hinv.
  - destruct (reporter_live S); simpl; [|exact Hinv].
    destruct (run S); simpl; [|exact Hinv].
    rewrite Hinv. apply Hplain. case_match; repeat constructor.
Qed.

Lemma acknowledged_bounds (t : list Effect) :
  0 <= acknowledged t <= Z.of_nat (length (flushed_rows t)).
Proof.
  induction t as [|e t IH]; [simpl; lia|].
  destruct e as [| |rows|o]; simpl; try exact IH.
  rewrite length_app.
  destruct t as [|[| | |[]] t']; simpl in *; lia.
Qed.

Lemma total_written_printed_step (e : Event) (S : System) :
  (writer_live S = false ->
   In (Print (TotalWritten (total_written (writer S)))) (trace S)) ->
  writer_live (step e S) = false ->
  In (Print (TotalWritten (total_written (writer (step e S)))))
     (trace (step e S)).
Proof.
  intros Hinv.
  destruct e as [p|now res| |]; simpl; [| | |exact Hinv].
  - destruct (dispatcher_live S); simpl; [|exact Hinv].
    destruct (run S); simpl; intros Hw; apply in_or_app; left; auto.
  - destruct (writer_live S) eqn:Hw; simpl; [|intros _; auto].
    destruct (run S); simpl; [discriminate|].
    intros _. apply in_or_app. right. unfold writer_epilogue.
    apply in_or_app. right. now left.
  - destruct (reporter_live S); simpl; [|exact Hinv].
    destruct (run S); simpl; [|exact Hinv].
    intros Hw. apply in_or_app. left. auto.
Qed.

(** X7. [total_written] counts exactly the rows the sink accepted: at
    every point of every run it is the number of rows of the statements
    that were not refused (in 64-bit arithmetic), which is at most the
    number of rows sent; and it is the total the writer prints when it
    leaves its loop. *)
Theorem total_written_counts_accepted_rows (start : Z) (evs : list Event) :
  let S := run_events evs (system_init start) in
  total_written (writer S) = wrap64 (acknowledged (trace S))
  /\ 0 <= acknowledged (trace S) <= Z.of_nat (length (flushed_rows (trace S)))
  /\ (writer_live S = false ->
      In (Print (TotalWritten (total_written (writer S)))) (trace S)).
Proof.
  intros S. split; [|split].
  - apply (run_events_invariant
             (fun S => total_written (writer S)
                       = wrap64 (acknowledged (trace S)))
             total_written_step evs).
    reflexivity.
  - apply acknowledged_bounds.
  - apply (run_events_invariant
             (fun S => writer_live S = false ->
                       In (Print (TotalWritten (total_written (writer S))))
                          (trace S))
             total_written_printed_step evs).
    discriminate.
Qed.

(** A batch accepted, a batch refused, then the interrupt: one row is
    counted and printed as the total. *)
Lemma total_written_counts_accepted_rows_witness :
  let a := mkUpdate "AAPL" (150 # 1) 10 1000 in
  let b := mkUpdate "GOOG" (99 # 1) 5 2000 in
  let evs := [Poll (Message 1500 (Some a));
              WriterTick 100000000 PGRES_COMMAND_OK;
              Poll (Message 2500 (Some b));
              WriterTick 200000000 (PGRES_FAILED "timeout");
              SIGINT;
              WriterTick 300000000 PGRES_COMMAND_OK] in
  let S := run_events evs (system_init 0) in
  writer_live S = false
  /\ length (flushed_rows (trace S)) = 2%nat
  /\ total_written (writer S) = 1
  /\ In (Print (TotalWritten 1)) (trace S).
Proof.
  intros a b evs S.
  destruct (total_written_counts_accepted_rows 0 evs) as (Htotal & _ & Hprint).
  assert (Hw : writer_live S = false) by reflexivity.
  split; [exact Hw|]. split; [reflexivity|]. split; [reflexivity|].
  exact (Hprint Hw).
Defined.

(** ** The average the reporter prints *)









(** ** What each thread leaves alone *)

(** X9. Each thread touches only what it owns.  The reporter changes
    nothing but its own output.  The writer leaves the statistics, the
    dispatcher's counters and [run] as they are and only takes items from
    the front of the queue.  The dispatcher leaves the writer's batch,
    flush time and total as they are, sends nothing to the sink and only
    adds to the back of the queue.  The interrupt only clears [run]. *)
Theorem threads_keep_to_their_state (S : System) :
  (let S' := step ReporterTick S in
   run S' = run S /\ stats S' = stats S /\ batch_queue S' = batch_queue S
   /\ dispatcher S' = dispatcher S /\ writer S' = writer S
   /\ dispatcher_live S' = dispatcher_live S
   /\ writer_live S' = writer_live S
   /\ statements (trace S') = statements (trace S)
   /\ sets (trace S') = sets (trace S))
  /\ (forall (now : Z) (res : ExecStatus),
        let S' := step (WriterTick now res) S in
        run S' = run S /\ stats S' = stats S
        /\ dispatcher S' = dispatcher S
        /\ dispatcher_live S' = dispatcher_live S
        /\ reporter_live S' = reporter_live S
        /\ sets (trace S') = sets (trace S)
        /\ suffix (batch_queue S') (batch_queue S))
  /\ (forall p : Polled,
        let S' := step (Poll p) S in
        run S' = run S /\ writer S' = writer S
        /\ writer_live S' = writer_live S
        /\ reporter_live S' = reporter_live S
        /\ statements (trace S') = statements (trace S)
        /\ prefix (batch_queue S) (batch_queue S'))
  /\ (let S' := step SIGINT S in
      run S' = false /\ stats S' = stats S /\ batch_queue S' = batch_queue S
      /\ dispatcher S' = dispatcher S /\ writer S' = writer S
      /\ trace S' = trace S).
Proof.
  split; [|split; [|split]].
  - simpl. destruct (reporter_live S); simpl; [|auto 10].
    destruct (run S); simpl; [|auto 10].
    rewrite statements_app, sets_app.
    case_match; simpl; rewrite !app_nil_r; auto 10.
  - intros now res. simpl.
    destruct (writer_live S); simpl; [|auto 10].
    destruct (run S); simpl.
    + rewrite sets_app, (sets_quiet _ (writer_iter_quiet _ _ _ _)), app_nil_r.
      rewrite writer_iter_drained.
      repeat split; try reflexivity.
      pose proof (drain_exact (batch_queue S) (local_batch (writer S))) as Hd.
      cbv zeta in Hd. rewrite Hd. simpl.
      exists (take (Z.to_nat (BATCH_SIZE - size (local_batch (writer S))))
                   (batch_queue S)).
      symmetry. apply take_drop.
    + rewrite sets_app, (sets_quiet _ (writer_epilogue_quiet _)), app_nil_r.
      auto 10.
  - intros p. simpl.
    destruct (dispatcher_live S); simpl; [|auto 10].
    destruct (run S); simpl; rewrite statements_app.
    + destruct (dispatcher_iter_queue p (dispatcher S) (stats S)
                  (batch_queue S)) as (-> & -> & _).
      rewrite app_nil_r. repeat split; try reflexivity.
      apply prefix_app_r. reflexivity.
    + destruct (dispatcher_epilogue_sink (dispatcher S)) as [-> _].
      rewrite app_nil_r. auto 10.
  - simpl. auto 10.
Qed.

(** ** After the interrupt *)





(** ** The processed count over time *)

Lemma valid_payloads_app (evs1 evs2 : list Event) :
  (valid_payloads evs1 <= valid_payloads (evs1 ++ evs2))%nat.
Proof.
  induction evs1 as [|[[|[]|? [?|]]| | |] evs1 IH]; simpl; lia.
Qed.

Lemma malformed_payloads_app (evs1 evs2 : list Event) :
  (malformed_payloads evs1 <= malformed_payloads (evs1 ++ evs2))%nat.
Proof.
  induction evs1 as [|[[|[]|? [?|]]| | |] evs1 IH]; simpl; lia.
Qed.

Lemma counts_of_run (start : Z) (evs : list Event) :
  let S := run_events evs (system_init start) in
  let N := Z.of_nat (valid_payloads evs) in
  let M := Z.of_nat (malformed_payloads evs) in
  N + M <= LLONG_MAX ->
  total_processed (stats S) = N /\ msg_count (dispatcher S) = N + M.
Proof.
  intros S N M Hsmall.
  destruct (dispatcher_run evs (system_init start) (loops_live_init start))
    as [Hstats Hcount].
  fold S in Hstats, Hcount. simpl in Hstats, Hcount. split.
  - rewrite Hstats. rewrite <- (wrap64_id (total_processed _)).
    + rewrite record_all_count, recorded_length. simpl.
      apply wrap64_id. subst N M. unfold in_ll, LLONG_MIN, LLONG_MAX in *.
      lia.
    + apply record_all_count_range. simpl.
      unfold in_ll, LLONG_MIN, LLONG_MAX. lia.
  - rewrite <- (wrap64_id (msg_count _)).
    + rewrite Hcount.
      replace (0 + Z.of_nat (valid_payloads evs + malformed_payloads evs))
        with (N + M) by (subst N M; lia).
      apply wrap64_id. subst N M.
      unfold in_ll, LLONG_MIN, LLONG_MAX in *. lia.
    + apply msg_count_range. simpl. unfold in_ll, LLONG_MIN, LLONG_MAX.
      lia.
Qed.

(** X11. While the number of payloads fits in [long long], the processed
    count and [msg_count] never decrease as a run goes on, and the number
    of payloads dropped for not decoding is their difference. *)
Theorem processed_count_never_decreases (start : Z)
    (evs more : list Event) :
  let S := run_events evs (system_init start) in
  let S' := run_events (evs ++ more) (system_init start) in
  Z.of_nat (valid_payloads (evs ++ more))
  + Z.of_nat (malformed_payloads (evs ++ more)) <= LLONG_MAX ->
  total_processed (stats S) <= total_processed (stats S')
  /\ msg_count (dispatcher S) <= msg_count (dispatcher S')
  /\ msg_count (dispatcher S') - total_processed (stats S')
     = Z.of_nat (malformed_payloads (evs ++ more)).
Proof.
  intros S S' Hsmall.
  pose proof (valid_payloads_app evs more) as Hv.
  pose proof (malformed_payloads_app evs more) as Hm.
  destruct (counts_of_run start (evs ++ more) Hsmall) as [Hp' Hc'].
  destruct (counts_of_run start evs ltac:(lia)) as [Hp Hc].
  fold S in Hp, Hc. fold S' in Hp', Hc'.
  rewrite Hp, Hp', Hc, Hc'. lia.
Qed.

(** A valid payload, then a malformed and a valid one. *)
Lemma processed_count_never_decreases_witness :
  let u := mkUpdate "AAPL" (150 # 1) 10 1000 in
  let evs := [Poll (Message 1500 (Some u))] in
  let more := [Poll (Message 1600 None); Poll (Message 1700 (Some u))] in
  let S := run_events evs (system_init 0) in
  let S' := run_events (evs ++ more) (system_init 0) in
  Z.of_nat (valid_payloads (evs ++ more))
  + Z.of_nat (malformed_payloads (evs ++ more)) <= LLONG_MAX
  /\ total_processed (stats S) <= total_processed (stats S')
  /\ msg_count (dispatcher S') - total_processed (stats S') = 1.
Proof.
  intros u evs more S S'.
  assert (Hsmall : Z.of_nat (valid_payloads (evs ++ more))
                   + Z.of_nat (malformed_payloads (evs ++ more)) <= LLONG_MAX)
    by (vm_compute; discriminate).
  destruct (processed_count_never_decreases 0 evs more Hsmall)
    as (Hp & _ & Hdiff).
  split; [exact Hsmall|]. split; [exact Hp | exact Hdiff].
Defined.

(** ** The producer *)

Lemma produced_app (t1 t2 : list ProducerEffect) :
  produced (t1 ++ t2) = produced t1 ++ produced t2.
Proof. induction t1 as [|[] t1 IH]; simpl; rewrite ?IH; reflexivity. Qed.

Lemma polls_app (t1 t2 : list ProducerEffect) :
  polls (t1 ++ t2) = polls t1 ++ polls t2.
Proof. induction t1 as [|[] t1 IH]; simpl; rewrite ?IH; reflexivity. Qed.

Lemma sleeps_app (t1 t2 : list ProducerEffect) :
  sleeps (t1 ++ t2) = (sleeps t1 + sleeps t2)%nat.
Proof. induction t1 as [|[] t1 IH]; simpl; rewrite ?IH; reflexivity. Qed.

(** What one iteration does, whatever [rd_kafka_produce] answers. *)
Lemma produce_iter_spec (tickers : list string) (d : Draw) (err : ProduceErr)
    (s : ProducerStats) (m : string * MarketUpdate) :
  message_of tickers d = Some m ->
  exists s' effects,
    produce_iter tickers d err s = Some (s', effects)
    /\ produced effects = [m]
    /\ polls effects = [if queue_was_full (d, err) then 100 else 0]
    /\ sleeps effects = (if queue_was_full (d, err) then 0 else 1)%nat
    /\ total_messages s'
       = (if succeeded (d, err) then ll_add (total_messages s) 1
          else total_messages s)
    /\ total_errors s'
       = (if succeeded (d, err) then total_errors s
          else ll_add (total_errors s) 1).
Proof.
  unfold message_of, produce_iter. intros Hm.
  destruct (tickers !! ticker_index d) as [current_ticker|]; [|discriminate].
  injection Hm as <-.
  destruct err; eexists _, _; repeat split; reflexivity.
Qed.

Lemma produce_loop_spec (tickers : list string)
    (inputs : list (Draw * ProduceErr)) (s : ProducerStats) :
  Forall (fun i => (ticker_index i.1 < length tickers)%nat) inputs ->
  exists s' effects,
    produce_loop tickers inputs s = Some (s', effects)
    /\ Some <$> produced effects = (fun i => message_of tickers i.1) <$> inputs
    /\ polls effects
       = (fun i => if queue_was_full i then 100 else 0) <$> inputs
    /\ (sleeps effects + length (List.filter queue_was_full inputs)
        = length inputs)%nat
    /\ wrap64 (total_messages s')
       = wrap64 (total_messages s
                 + Z.of_nat (length (List.filter succeeded inputs)))
    /\ wrap64 (total_errors s')
       = wrap64 (total_errors s
                 + (Z.of_nat (length inputs)
                    - Z.of_nat (length (List.filter succeeded inputs)))).
Proof.
  intros Hin. revert s.
  induction Hin as [|[d err] inputs Hd Hin IH]; intros s.
  - exists s, []. simpl. repeat split; f_equal; lia.
  - simpl in Hd. apply lookup_lt_is_Some_2 in Hd as [current_ticker Ht].
    assert (Hm : message_of tickers d
                 = Some (current_ticker,
                         mkUpdate current_ticker
                                  (price_base d + price_change d)%Q
                                  (drawn_volume d) (produce_timestamp d)))
      by (unfold message_of; rewrite Ht; reflexivity).
    destruct (produce_iter_spec tickers d err s _ Hm)
      as (s1 & eff1 & Hiter & Hp1 & Hpo1 & Hsl1 & Hm1 & He1).
    destruct (IH s1) as (s2 & eff2 & Hloop & Hp2 & Hpo2 & Hsl2 & Hm2 & He2).
    exists s2, (eff1 ++ eff2).
    simpl produce_loop. rewrite Hiter, Hloop.
    rewrite produced_app, polls_app, sleeps_app, Hp1, Hpo1, Hsl1.
    split; [reflexivity|]. split.
    { rewrite fmap_app, Hp2. simpl. rewrite Hm. reflexivity. }
    split; [rewrite Hpo2; reflexivity|].
    rewrite Hm2, He2, Hm1, He1. clear - Hsl2.
    change (length ((d, err) :: inputs)) with (Datatypes.S (length inputs)).
    destruct err; simpl; unfold ll_add; rewrite ?wrap64_add_l;
      (split; [lia|]); split; f_equal; lia.
Qed.

Lemma produce_loop_range (tickers : list string)
    (inputs : list (Draw * ProduceErr)) (s s' : ProducerStats)
    (effects : list ProducerEffect) :
  produce_loop tickers inputs s = Some (s', effects) ->
  in_ll (total_messages s) -> in_ll (total_errors s) ->
  in_ll (total_messages s') /\ in_ll (total_errors s').
Proof.
  revert s s' effects.
  induction inputs as [|[d err] inputs IH]; intros s s' effects Hloop Hm He.
  - simpl in Hloop. injection Hloop as <- <-. auto.
  - simpl in Hloop.
    destruct (produce_iter tickers d err s) as [[s1 e1]|] eqn:Hiter;
      [|discriminate].
    destruct (produce_loop tickers inputs s1) as [[s2 e2]|] eqn:Hrest;
      [|discriminate].
    injection Hloop as <- <-. apply (IH s1 s2 e2 Hrest).
    + unfold produce_iter in Hiter.
      destruct (tickers !! ticker_index d); [|discriminate].
      destruct err; injection Hiter as <- <-; simpl;
        first [assumption | apply wrap64_range].
    + unfold produce_iter in Hiter.
      destruct (tickers !! ticker_index d); [|discriminate].
      destruct err; injection Hiter as <- <-; simpl;
        first [assumption | apply wrap64_range].
Qed.

(** The loop of the producer over any list of iterations. *)
Lemma produce_loop_counts (tickers : list string)
    (inputs : list (Draw * ProduceErr)) :
  Forall (fun i => (ticker_index i.1 < length tickers)%nat) inputs ->
  exists s effects,
    produce_loop tickers inputs producer_stats_init = Some (s, effects)
    /\ Some <$> produced effects
       = (fun i => message_of tickers i.1) <$> inputs
    /\ Forall (fun m => m.1 = upd_ticker m.2) (produced effects)
    /\ polls effects
       = (fun i => if queue_was_full i then 100 else 0) <$> inputs
    /\ (sleeps effects + length (List.filter queue_was_full inputs)
        = length inputs)%nat
    /\ total_messages s
       = wrap64 (Z.of_nat (length (List.filter succeeded inputs)))
    /\ total_errors s
       = wrap64 (Z.of_nat (length inputs)
                 - Z.of_nat (length (List.filter succeeded inputs))).
Proof.
  intros Hin.
  destruct (produce_loop_spec tickers inputs producer_stats_init Hin)
    as (s & effects & Hloop & Hp & Hpo & Hsl & Hm & He).
  exists s, effects. split; [exact Hloop|]. split; [exact Hp|].
  split; [|split; [exact Hpo|split; [exact Hsl|]]].
  - clear - Hp. revert Hp. generalize (produced effects). intros ms.
    revert ms. induction inputs as [|[d err] inputs IH]; intros ms Hp.
    + destruct ms; [constructor | discriminate].
    + destruct ms as [|m ms]; [constructor|].
      simpl in Hp. injection Hp as Hm Hrest.
      constructor; [|exact (IH ms Hrest)].
      unfold message_of in Hm.
      destruct (tickers !! ticker_index d); [|discriminate].
      injection Hm as ->. reflexivity.
  - assert (H0 : in_ll 0) by (unfold in_ll, LLONG_MIN, LLONG_MAX; lia).
    destruct (produce_loop_range tickers inputs _ _ _ Hloop H0 H0)
      as [Hrm Hre].
    simpl in Hm, He.
    rewrite (wrap64_id _ Hrm) in Hm. rewrite (wrap64_id _ Hre) in He.
    rewrite Hm, He. split; f_equal; lia.
Qed.

(** X13. [produce_data] with a topic handle hands every message it builds
    to Kafka exactly once, keyed by its ticker, and counts every attempt
    exactly once: as a message when Kafka took it, as an error otherwise.
    A message refused on a full queue is not sent again; its iteration
    polls for 100 ms and goes on without sleeping, every other iteration
    polls without waiting and sleeps.  When [run] is cleared it flushes
    with a timeout of 10 s and destroys the topic handle last.  Without a
    topic handle it sends nothing and leaves the counters as they are. *)
Theorem producer_counts_every_attempt (tickers : list string)
    (inputs : list (Draw * ProduceErr)) :
  Forall (fun i => (ticker_index i.1 < length tickers)%nat) inputs ->
  (exists s effects,
     produce_data None tickers inputs producer_stats_init = Some (s, effects)
     /\ Some <$> produced effects
        = (fun i => message_of tickers i.1) <$> inputs
     /\ Forall (fun m => m.1 = upd_ticker m.2) (produced effects)
     /\ polls effects
        = (fun i => if queue_was_full i then 100 else 0) <$> inputs
     /\ (sleeps effects + length (List.filter queue_was_full inputs)
         = length inputs)%nat
     /\ total_messages s
        = wrap64 (Z.of_nat (length (List.filter succeeded inputs)))
     /\ total_errors s
        = wrap64 (Z.of_nat (length inputs)
                  - Z.of_nat (length (List.filter succeeded inputs)))
     /\ drop (length effects - 2) effects = [KafkaFlush 10000; TopicDestroy])
  /\ (forall errstr : string,
        exists effects,
          produce_data (Some errstr) tickers inputs producer_stats_init
          = Some (producer_stats_init, effects)
          /\ produced effects = [] /\ polls effects = []).
Proof.
  intros Hin. split.
  - destruct (produce_loop_counts tickers inputs Hin)
      as (s & effects & Hloop & Hp & Hkey & Hpo & Hsl & Hm & He).
    exists s, (effects ++ [ProducerSay "Flushing final messages...";
                           KafkaFlush 10000; TopicDestroy]).
    unfold produce_data. rewrite Hloop.
    rewrite produced_app, polls_app, sleeps_app. simpl.
    rewrite !app_nil_r, Nat.add_0_r.
    repeat split; try assumption.
    rewrite length_app. simpl.
    replace (length effects + 3 - 2)%nat
      with (length effects + 1)%nat by lia.
    rewrite drop_app, drop_ge by lia.
    replace (length effects + 1 - length effects)%nat with 1%nat by lia.
    reflexivity.
  - intros errstr. eexists. repeat split.
Qed.

(** Three iterations on two tickers: accepted, refused on a full queue,
    accepted. *)
Lemma producer_counts_every_attempt_witness :
  let tickers := ["AAPL"; "GOOG"] in
  let d := fun i t => mkDraw i (100 # 1) (1 # 4) 500 t in
  let inputs := [(d 0%nat 10, NO_ERROR); (d 1%nat 20, QUEUE_FULL);
                 (d 1%nat 30, NO_ERROR)] in
  Forall (fun i => (ticker_index i.1 < length tickers)%nat) inputs
  /\ exists s effects,
       produce_data None tickers inputs producer_stats_init
       = Some (s, effects)
       /\ fst <$> produced effects = ["AAPL"; "GOOG"; "GOOG"]
       /\ polls effects = [0; 100; 0]
       /\ total_messages s = 2 /\ total_errors s = 1.
Proof.
  intros tickers d inputs.
  assert (Hin : Forall (fun i => (ticker_index i.1 < length tickers)%nat)
                       inputs) by (repeat constructor).
  split; [exact Hin|].
  destruct (producer_counts_every_attempt tickers inputs Hin)
    as [(s & effects & Hdata & _) _].
  exists s, effects. split; [exact Hdata|].
  vm_compute in Hdata. injection Hdata as <- <-.
  repeat split; reflexivity.
Defined.

(** X14. [create_kafka_producer] makes its six settings in order and
    stops at the first one refused: the settings attempted are those up to
    and including it, [rd_kafka_new] is called only when all six were
    accepted, and a producer is returned only when it succeeded as well.
    A failure writes exactly one line to the error stream, naming the
    setting refused or the failure of [rd_kafka_new]; a success writes
    none. *)
Theorem create_kafka_producer_stops_at_first_refusal (brokers : string)
    (conf_set : string -> string -> option string)
    (kafka_new : option string) :
  let r := create_kafka_producer brokers conf_set kafka_new in
  let settings := producer_settings brokers in
  settings_made r.2 = until_refused conf_set settings
  /\ new_attempted r.2 = all_accepted conf_set settings
  /\ r.1 = all_accepted conf_set settings
           && match kafka_new with None => true | Some _ => false end
  /\ setup_errors r.2
     = match first_refusal conf_set settings with
       | Some (name, errstr) =>
           ["Config error (" +:+ name +:+ "): " +:+ errstr]
       | None =>
           match kafka_new with
           | Some errstr => ["Failed to create Kafka producer: " +:+ errstr]
           | None => []
           end
       end.
Proof.
  unfold create_kafka_producer, producer_settings, try_conf, all_accepted.
  cbn [until_refused first_refusal forallb fst snd].
  destruct (conf_set "metadata.max.age.ms" "30000"); [repeat split|].
  destruct (conf_set "socket.timeout.ms" "60000"); [repeat split|].
  destruct (conf_set "linger.ms" "10"); [repeat split|].
  destruct (conf_set "compression.codec" "snappy"); [repeat split|].
  destruct (conf_set "queue.buffering.max.messages" "100000");
    [repeat split|].
  destruct (conf_set "bootstrap.servers" brokers); [repeat split|].
  destruct kafka_new; repeat split.
Qed.

(** ** Start-up and shutdown of the aggregator *)

(** X12. [connect_to_timescale] returns a connection exactly when the
    connection is good and the statement creating the table reports
    [PGRES_COMMAND_OK] or [PGRES_TUPLES_OK].  It connects once, with the
    fixed port, database and credentials at the host it is given.  Every
    path that returns no connection ends by closing it with [PQfinish], a
    returned connection is not closed, and the result of the statement is
    cleared exactly when the statement was executed. *)
Theorem connect_to_timescale_releases (host : string) (status : ConnStatus)
    (res : SchemaStatus) (errmsg : string) :
  let r := connect_to_timescale host status res errmsg in
  r.1 = match status, res with
        | CONNECTION_OK, SCHEMA_COMMAND_OK
        | CONNECTION_OK, SCHEMA_TUPLES_OK => true
        | _, _ => false
        end
  /\ conninfos r.2
     = ["host=" +:+ host
        +:+ " port=5432 dbname=market_data user=postgres password=postgres"]
  /\ head r.2 = Some (PQconnectdb (conninfo_of host))
  /\ count_calls is_pqfinish r.2 = (if r.1 then 0 else 1)%nat
  /\ last r.2 = Some (if r.1 then Cout "TimescaleDB table ready."
                      else PQfinish)
  /\ count_calls is_pqclear r.2 = count_calls is_pqexec_schema r.2
  /\ count_calls is_pqexec_schema r.2
     = match status with CONNECTION_OK => 1 | CONNECTION_BAD => 0 end%nat.
Proof.
  destruct status, res; repeat split.
Qed.


(** ** The cache inspection tool *)










(** ** The reports of the producer *)

Lemma status_loop_cons (rd : StatusReading) (rest : list StatusReading)
    (st : StatusState) :
  status_loop (rd :: rest) st
  = ((status_loop rest (status_iter rd st).1).1,
     (status_iter rd st).2 :: (status_loop rest (status_iter rd st).1).2).
Proof.
  simpl. destruct (status_loop rest _) as [st2 reports]. reflexivity.
Qed.

(** X17. The reports of the producer's [status_reporter] partition the
    messages: while the counter read never goes down (and is a
    non-negative [long long]), every report's count of messages sent is
    the exact, non-negative difference between two successive readings,
    the total it prints is the reading itself, and the counts of all
    reports add up to the last reading minus the count at the start: no
    message is reported twice and none is missed. *)
Theorem status_reports_add_up (readings : list StatusReading)
    (st : StatusState) :
  0 <= last_count st -> nondecreasing_from (last_count st) readings ->
  let r := status_loop readings st in
  total_reported <$> r.2 = read_count <$> readings
  /\ errors_reported <$> r.2 = read_errors <$> readings
  /\ Forall (fun rep => 0 <= messages_sent rep) r.2
  /\ sum_list (messages_sent <$> r.2) = last_count r.1 - last_count st
  /\ last_count r.1 = default (last_count st) (last (read_count <$> readings)).
Proof.
  revert st. induction readings as [|rd rest IH]; intros st H0 Hmono.
  - simpl. repeat split; [constructor | lia].
  - destruct Hmono as [Hrd Hrest].
    rewrite status_loop_cons. cbn [fst snd].
    assert (H1 : 0 <= last_count (status_iter rd st).1) by (simpl; lia).
    destruct (IH (status_iter rd st).1 H1 Hrest)
      as (Ht & He & Hpos & Hsum & Hlast).
    assert (Hsent : messages_sent (status_iter rd st).2
                    = read_count rd - last_count st).
    { simpl. unfold ll_sub. apply wrap64_id.
      unfold in_ll, LLONG_MIN, LLONG_MAX in *. lia. }
    rewrite !fmap_cons, Ht, He.
    split; [reflexivity|]. split; [reflexivity|].
    split; [constructor; [rewrite Hsent; lia | exact Hpos]|].
    split.
    + change (sum_list (messages_sent (status_iter rd st).2
                          :: (messages_sent <$> (status_loop rest
                                (status_iter rd st).1).2)))
        with (messages_sent (status_iter rd st).2
              + sum_list (messages_sent <$> (status_loop rest
                            (status_iter rd st).1).2)).
      rewrite Hsum, Hsent. simpl. lia.
    + rewrite Hlast. simpl last_count.
      destruct rest as [|rd' rest']; [reflexivity|].
      rewrite !fmap_cons, last_cons_cons.
      destruct (last (read_count rd' :: (read_count <$> rest'))) eqn:Hl;
        [reflexivity|].
      apply last_None in Hl. discriminate.
Qed.

(** Readings of 120, 120 and 300 messages after a start at 20. *)
Lemma status_reports_add_up_witness :
  let st := mkStatusState 20 0 in
  let readings := [mkStatusReading 5000000000 120 1;
                   mkStatusReading 10000000000 120 1;
                   mkStatusReading 15000000000 300 4] in
  (0 <= last_count st /\ nondecreasing_from (last_count st) readings)
  /\ messages_sent <$> (status_loop readings st).2 = [100; 0; 180]
  /\ sum_list (messages_sent <$> (status_loop readings st).2) = 300 - 20.
Proof.
  intros st readings.
  assert (H0 : 0 <= last_count st) by (simpl; lia).
  assert (Hmono : nondecreasing_from (last_count st) readings)
    by (simpl; unfold LLONG_MAX; lia).
  destruct (status_reports_add_up readings st H0 Hmono)
    as (_ & _ & _ & Hsum & _).
  split; [split; assumption|]. split; [reflexivity|].
  rewrite Hsum. reflexivity.
Defined.
